(** * animate.js: easing catalog and animation driver

    A shallow embedding of [src/easing.ts] and [src/animate.ts].

    Numbers.  The source computes on JavaScript numbers.  The development
    idealises them as rationals [Q]: every arithmetic operation is exact,
    which is the reading under which the specification states its
    formulas ("for every real t", "under exact arithmetic").  Rounding,
    infinities and NaN are outside the model; a division by 0 has the
    value 0 in [Q], and no statement below depends on one.  Where the
    code depends on a [number] variable holding no number it is
    modelled: an unassigned [let] is [None], and the falsy test of [||]
    on a number is a test against 0.

    Host.  The browser is modelled by the three facilities the driver
    consumes: the map of animation frame callbacks behind
    [requestAnimationFrame]/[cancelAnimationFrame], the event listener
    lists behind [addEventListener]/[removeEventListener], and the value
    of [this] a callback is invoked with. *)

From Stdlib Require Import QArith Qpower Lqa Lia List String ZArith Bool Arith.
Import ListNotations.

Open Scope Q_scope.

(* ================================================================= *)
(** ** Numbers *)

(** [x < y] on numbers, as a boolean test. *)
Definition Qlt_bool (x y : Q) : bool := negb (Qle_bool y x).

(** Truthiness of a number: [0] is falsy. *)
Definition truthy (x : Q) : bool := negb (Qeq_bool x 0).

(* ================================================================= *)
(** ** easing.ts *)

Module Easing.

(** [export type EasingFunction = (t: number) => number] *)
Definition EasingFunction : Type := Q -> Q.

(** A prefix decrement [--t] assigns [t - 1] to the parameter and yields
    the new value; every later read of [t] in the same expression sees
    the decremented value.  It is written as a rebinding of [t] that
    scopes over the arithmetic expression it occurs in. *)

Definition linear (t : Q) : Q := t.

Definition easeInQuad (t : Q) : Q := t * t.

Definition easeOutQuad (t : Q) : Q := t * (2 - t).

Definition easeInOutQuad (t : Q) : Q :=
  if Qlt_bool t 0.5 then 2 * t * t else - (1) + (4 - 2 * t) * t.

Definition easeInCubic (t : Q) : Q := t * t * t.

Definition easeOutCubic (t : Q) : Q :=
  let t := t - 1 in t * t * t + 1.

Definition easeInOutCubic (t : Q) : Q :=
  if Qlt_bool t 0.5 then 4 * t * t * t
  else (t - 1) * (2 * t - 2) * (2 * t - 2) + 1.

Definition easeInQuart (t : Q) : Q := t * t * t * t.

Definition easeOutQuart (t : Q) : Q :=
  let t := t - 1 in 1 - t * t * t * t.

Definition easeInOutQuart (t : Q) : Q :=
  if Qlt_bool t 0.5 then 8 * t * t * t * t
  else let t := t - 1 in 1 - 8 * t * t * t * t.

Definition easeInQuint (t : Q) : Q := t * t * t * t * t.

Definition easeOutQuint (t : Q) : Q :=
  let t := t - 1 in 1 + t * t * t * t * t.

Definition easeInOutQuint (t : Q) : Q :=
  if Qlt_bool t 0.5 then 16 * t * t * t * t * t
  else let t := t - 1 in 1 + 16 * t * t * t * t * t.

(** The exported object, as its own properties in declaration order. *)
Definition EasingFunctions : list (string * EasingFunction) :=
  [ ("linear"%string, linear);
    ("easeInQuad"%string, easeInQuad);
    ("easeOutQuad"%string, easeOutQuad);
    ("easeInOutQuad"%string, easeInOutQuad);
    ("easeInCubic"%string, easeInCubic);
    ("easeOutCubic"%string, easeOutCubic);
    ("easeInOutCubic"%string, easeInOutCubic);
    ("easeInQuart"%string, easeInQuart);
    ("easeOutQuart"%string, easeOutQuart);
    ("easeInOutQuart"%string, easeInOutQuart);
    ("easeInQuint"%string, easeInQuint);
    ("easeOutQuint"%string, easeOutQuint);
    ("easeInOutQuint"%string, easeInOutQuint) ].

End Easing.

(** The table of the specification (section 4.1), written from its words:
    powers are powers, and each row is one closed formula. *)
Module EasingTable.

Definition linear (t : Q) : Q := t.
Definition easeInQuad (t : Q) : Q := t ^ 2.
Definition easeOutQuad (t : Q) : Q := t * (2 - t).
Definition easeInOutQuad (t : Q) : Q :=
  if Qlt_bool t (1 # 2) then 2 * t ^ 2 else - (1) + (4 - 2 * t) * t.
Definition easeInCubic (t : Q) : Q := t ^ 3.
Definition easeOutCubic (t : Q) : Q := (t - 1) ^ 3 + 1.
Definition easeInOutCubic (t : Q) : Q :=
  if Qlt_bool t (1 # 2) then 4 * t ^ 3 else (t - 1) * (2 * t - 2) ^ 2 + 1.
Definition easeInQuart (t : Q) : Q := t ^ 4.
Definition easeOutQuart (t : Q) : Q := 1 - (t - 1) ^ 4.
Definition easeInOutQuart (t : Q) : Q :=
  if Qlt_bool t (1 # 2) then 8 * t ^ 4 else 1 - 8 * (t - 1) ^ 4.
Definition easeInQuint (t : Q) : Q := t ^ 5.
Definition easeOutQuint (t : Q) : Q := 1 + (t - 1) ^ 5.
Definition easeInOutQuint (t : Q) : Q :=
  if Qlt_bool t (1 # 2) then 16 * t ^ 5 else 1 + 16 * (t - 1) ^ 5.

Definition table : list (string * (Q -> Q)) :=
  [ ("linear"%string, linear);
    ("easeInQuad"%string, easeInQuad);
    ("easeOutQuad"%string, easeOutQuad);
    ("easeInOutQuad"%string, easeInOutQuad);
    ("easeInCubic"%string, easeInCubic);
    ("easeOutCubic"%string, easeOutCubic);
    ("easeInOutCubic"%string, easeInOutCubic);
    ("easeInQuart"%string, easeInQuart);
    ("easeOutQuart"%string, easeOutQuart);
    ("easeInOutQuart"%string, easeInOutQuart);
    ("easeInQuint"%string, easeInQuint);
    ("easeOutQuint"%string, easeOutQuint);
    ("easeInOutQuint"%string, easeInOutQuint) ].

End EasingTable.

(* ================================================================= *)
(** ** animate.ts *)

Module Animate.

Import Easing.

(** [export type AnimationElement = Window | HTMLElement] *)
Inductive AnimationElement : Type :=
| window
| HTMLElement (id : nat).

(** The four event types the driver listens for. *)
Inductive EventType : Type := wheel | touchstart | mousedown | keydown.

(** One call of [animate] creates one family of closures ([frame],
    [animationCompleteHandler]) over one set of captured variables
    ([requestId], [start], [nextValueIterator]).  A [RunId] names that
    family. *)
Abbreviation RunId := nat (only parsing).

(** The values that reach [this] or the listener argument of
    [addEventListener]/[removeEventListener] in this program. *)
Inductive Value : Type :=
| undefined
| object (e : AnimationElement)
| handler (r : RunId).     (* the function animationCompleteHandler of run r *)

(** [interface AnimationOptions] *)
Record AnimationOptions : Type := mkOptions {
  cancelOnUserAction : bool;
  element : AnimationElement;
  easing : EasingFunction;
  duration : Q
}.

(** [Partial<AnimationOptions>]: each property is present, with a value
    of its type, or absent. *)
Record PartialOptions : Type := mkPartial {
  cancelOnUserAction_opt : option bool;
  element_opt : option AnimationElement;
  easing_opt : option EasingFunction;
  duration_opt : option Q
}.

(** The closure returned by [getEasingValueIterator], as its captured
    environment; [iterate] is its body. *)
Record EasingValueIterator : Type := mkIterator {
  startTime : Q;
  targetTime : Q;
  iterator_easing : EasingFunction
}.

Definition getEasingValueIterator (startTime targetTime : Q)
           (easing : EasingFunction) : EasingValueIterator :=
  mkIterator startTime targetTime easing.

Definition iterate (it : EasingValueIterator) (currentTime : Q) : Q :=
  iterator_easing it
    (1 - (targetTime it - (currentTime - startTime it)) / targetTime it).

(** The variables one call of [animate] closes over, together with what
    the caller can observe of the run: the arguments [step] was invoked
    with (oldest first) and how many times [resolve] was invoked. *)
Record Run : Type := mkRun {
  (* destructured from [options] while the promise executor runs *)
  run_cancelOnUserAction : bool;
  run_element : AnimationElement;
  run_easing : EasingFunction;
  run_duration : Q;
  (* [let requestId: number] of animate *)
  requestId : option nat;
  (* [let start: number] and [let nextValueIterator] of getDoStep *)
  start : option Q;
  nextValueIterator : option EasingValueIterator;
  (* observations *)
  step_calls : list Q;
  resolve_calls : nat
}.

(** State of the page: the module-level [defaultOptions] object, the
    event listener lists of all targets, the map of animation frame
    callbacks (insertion-ordered, keyed by handle) with the counter the
    handles are drawn from, and the runs created so far. *)
Record World : Type := mkWorld {
  defaultOptions : AnimationOptions;
  listeners : list (AnimationElement * EventType * Value);
  callbacks : list (nat * RunId);
  next_handle : nat;
  runs : RunId -> Run;
  next_run : RunId
}.

(** *** State monad over the page *)

Definition M (A : Type) : Type := World -> A * World.

Definition ret {A} (a : A) : M A := fun w => (a, w).

Definition bind {A B} (m : M A) (k : A -> M B) : M B :=
  fun w => let (a, w') := m w in k a w'.

Definition exec {A} (m : M A) (w : World) : World := snd (m w).

Definition when (b : bool) (m : M unit) : M unit :=
  if b then m else ret tt.

Declare Scope js_scope.
Delimit Scope js_scope with js.
Notation "x <- m ;; k" := (bind m (fun x => k))
  (at level 61, m at next level, right associativity) : js_scope.
Notation "m ;; k" := (bind m (fun _ => k))
  (at level 61, right associativity) : js_scope.
Local Open Scope js_scope.

(** *** Equality tests of the host *)

Definition element_eqb (a b : AnimationElement) : bool :=
  match a, b with
  | window, window => true
  | HTMLElement i, HTMLElement j => Nat.eqb i j
  | _, _ => false
  end.

Definition type_eqb (a b : EventType) : bool :=
  match a, b with
  | wheel, wheel | touchstart, touchstart
  | mousedown, mousedown | keydown, keydown => true
  | _, _ => false
  end.

Definition value_eqb (a b : Value) : bool :=
  match a, b with
  | undefined, undefined => true
  | object e, object e' => element_eqb e e'
  | handler r, handler r' => Nat.eqb r r'
  | _, _ => false
  end.

Definition listener_eqb (a b : AnimationElement * EventType * Value) : bool :=
  let '(e, t, v) := a in
  let '(e', t', v') := b in
  element_eqb e e' && type_eqb t t' && value_eqb v v'.

(** *** Field updates *)

Definition set_defaultOptions (o : AnimationOptions) (w : World) : World :=
  mkWorld o (listeners w) (callbacks w) (next_handle w) (runs w) (next_run w).

Definition set_listeners (l : list (AnimationElement * EventType * Value))
           (w : World) : World :=
  mkWorld (defaultOptions w) l (callbacks w) (next_handle w) (runs w)
          (next_run w).

Definition set_callbacks (c : list (nat * RunId)) (w : World) : World :=
  mkWorld (defaultOptions w) (listeners w) c (next_handle w) (runs w)
          (next_run w).

Definition update_run (r : RunId) (f : Run -> Run) (w : World) : World :=
  mkWorld (defaultOptions w) (listeners w) (callbacks w) (next_handle w)
          (fun r' => if Nat.eqb r' r then f (runs w r') else runs w r')
          (next_run w).

Definition set_requestId (h : option nat) (x : Run) : Run :=
  mkRun (run_cancelOnUserAction x) (run_element x) (run_easing x)
        (run_duration x) h (start x) (nextValueIterator x) (step_calls x)
        (resolve_calls x).

Definition set_start (s : option Q) (x : Run) : Run :=
  mkRun (run_cancelOnUserAction x) (run_element x) (run_easing x)
        (run_duration x) (requestId x) s (nextValueIterator x)
        (step_calls x) (resolve_calls x).

Definition set_nextValueIterator (i : option EasingValueIterator) (x : Run)
  : Run :=
  mkRun (run_cancelOnUserAction x) (run_element x) (run_easing x)
        (run_duration x) (requestId x) (start x) i (step_calls x)
        (resolve_calls x).

Definition log_step (v : Q) (x : Run) : Run :=
  mkRun (run_cancelOnUserAction x) (run_element x) (run_easing x)
        (run_duration x) (requestId x) (start x) (nextValueIterator x)
        (step_calls x ++ [v]) (resolve_calls x).

Definition log_resolve (x : Run) : Run :=
  mkRun (run_cancelOnUserAction x) (run_element x) (run_easing x)
        (run_duration x) (requestId x) (start x) (nextValueIterator x)
        (step_calls x) (S (resolve_calls x)).

(** *** Host facilities *)

(** The map of callbacks without the entry of handle [h]. *)
Definition remove_callback (h : nat) (cs : list (nat * RunId))
  : list (nat * RunId) :=
  filter (fun c => negb (Nat.eqb (fst c) h)) cs.

(** A listener list without the listener [l]. *)
Definition remove_listener (l : AnimationElement * EventType * Value)
           (ls : list (AnimationElement * EventType * Value))
  : list (AnimationElement * EventType * Value) :=
  filter (fun l' => negb (listener_eqb l l')) ls.

(** [requestAnimationFrame(frame)] for the [frame] closure of run [r]:
    the callback is appended to the map under a fresh handle, which is
    returned. *)
Definition requestAnimationFrame (r : RunId) : M nat := fun w =>
  let h := next_handle w in
  (h, mkWorld (defaultOptions w) (listeners w) (callbacks w ++ [(h, r)])
              (S h) (runs w) (next_run w)).

(** [cancelAnimationFrame(handle)]: removes the entry of that handle if
    there is one.  An [undefined] argument names no entry. *)
Definition cancelAnimationFrame (handle : option nat) : M unit := fun w =>
  match handle with
  | Some h => (tt, set_callbacks (remove_callback h (callbacks w)) w)
  | None => (tt, w)
  end.

(** [target.addEventListener(type, callback)]: a missing callback is
    ignored, and so is one already in the list for that type. *)
Definition addEventListener (target : AnimationElement) (type : EventType)
           (callback : Value) : M unit := fun w =>
  match callback with
  | undefined => (tt, w)
  | _ =>
      if existsb (listener_eqb (target, type, callback)) (listeners w)
      then (tt, w)
      else (tt, set_listeners (listeners w ++ [(target, type, callback)]) w)
  end.

(** [target.removeEventListener(type, callback)]: removes the listener
    registered with exactly this type and callback, if any. *)
Definition removeEventListener (target : AnimationElement)
           (type : EventType) (callback : Value) : M unit := fun w =>
  (tt, set_listeners
         (remove_listener (target, type, callback) (listeners w)) w).

(** The caller's [step] and the promise's [resolve], as observations. *)
Definition step (r : RunId) (easingValue : Q) : M unit := fun w =>
  (tt, update_run r (log_step easingValue) w).

Definition resolve (r : RunId) : M unit := fun w =>
  (tt, update_run r log_resolve w).

Definition get_run (r : RunId) : M Run := fun w => (runs w r, w).

Definition modify_run (r : RunId) (f : Run -> Run) : M unit := fun w =>
  (tt, update_run r f w).

(** *** The functions of [animate] *)

(** [Object.assign(defaultOptions, userOptions)]: every property present
    in the source is written into the target object, which is the
    module-level [defaultOptions]; the target is what is returned. *)
Definition Object_assign (target : AnimationOptions)
           (source : option PartialOptions) : AnimationOptions :=
  match source with
  | None => target
  | Some s =>
      mkOptions
        (match cancelOnUserAction_opt s with
         | Some b => b | None => cancelOnUserAction target end)
        (match element_opt s with
         | Some e => e | None => element target end)
        (match easing_opt s with
         | Some f => f | None => easing target end)
        (match duration_opt s with
         | Some d => d | None => duration target end)
  end.

Definition assign_defaultOptions (userOptions : option PartialOptions)
  : M AnimationOptions := fun w =>
  let o := Object_assign (defaultOptions w) userOptions in
  (o, set_defaultOptions o w).

Definition addListeners (element : AnimationElement) (handler : Value)
  : M unit :=
  addEventListener element wheel handler ;;
  addEventListener element touchstart handler ;;
  addEventListener element mousedown handler ;;
  addEventListener element keydown handler.

Definition removeListeners (target : AnimationElement) (handler : Value)
  : M unit :=
  removeEventListener target wheel handler ;;
  removeEventListener target touchstart handler ;;
  removeEventListener target mousedown handler ;;
  removeEventListener target keydown handler.

(** [function animationCompleteHandler()], invoked with receiver
    [this]. *)
Definition animationCompleteHandler (r : RunId) (this : Value) : M unit :=
  x <- get_run r ;;
  cancelAnimationFrame (requestId x) ;;
  when (run_cancelOnUserAction x) (removeListeners (run_element x) this) ;;
  resolve r.

Definition shouldContinue (startTime currentTime targetTime : Q) : bool :=
  Qlt_bool (currentTime - startTime) targetTime.

(** [start || timestamp] for the captured [start]. *)
Definition start_or (start : option Q) (timestamp : Q) : Q :=
  match start with
  | Some s => if truthy s then s else timestamp
  | None => timestamp
  end.

(** [function frame(timestamp)] returned by [getDoStep]; its [complete]
    is the [animationCompleteHandler] of the same run, called as a plain
    function, so with [this] undefined. *)
Definition frame (r : RunId) (timestamp : Q) : M unit :=
  x <- get_run r ;;
  let start := start_or (start x) timestamp in
  modify_run r (set_start (Some start)) ;;
  let nextValueIterator :=
    match nextValueIterator x with
    | Some it => it
    | None => getEasingValueIterator start (run_duration x) (run_easing x)
    end in
  modify_run r (set_nextValueIterator (Some nextValueIterator)) ;;
  if shouldContinue start timestamp (run_duration x) then
    let nextValue := iterate nextValueIterator timestamp in
    step r nextValue ;;
    h <- requestAnimationFrame r ;;
    modify_run r (set_requestId (Some h))
  else
    step r 1 ;;
    animationCompleteHandler r undefined.

(** The closures of a call that has just destructured [options]. *)
Definition new_run (options : AnimationOptions) : M RunId := fun w =>
  let r := next_run w in
  (r, mkWorld (defaultOptions w) (listeners w) (callbacks w) (next_handle w)
              (fun r' =>
                 if Nat.eqb r' r
                 then mkRun (cancelOnUserAction options) (element options)
                            (easing options) (duration options)
                            None None None [] 0%nat
                 else runs w r')
              (S r)).

(** [export async function animate(step, userOptions?)].  The body runs
    to its end synchronously, promise executor included.  The handle
    returned by its call of [requestAnimationFrame] is dropped. *)
Definition animate (userOptions : option PartialOptions) : M RunId :=
  options <- assign_defaultOptions userOptions ;;
  r <- new_run options ;;
  when (cancelOnUserAction options)
       (addListeners (element options) (handler r)) ;;
  _ <- requestAnimationFrame r ;;
  ret r.

(** *** The host's event loop *)

(** Running one entry of the frame's callback list: a handle cancelled
    since the list was taken is skipped; otherwise the entry leaves the
    map and its callback runs. *)
Definition run_callback (timestamp : Q) (h : nat) : M unit := fun w =>
  match find (fun c => Nat.eqb (fst c) h) (callbacks w) with
  | Some (_, r) =>
      frame r timestamp
            (set_callbacks (remove_callback h (callbacks w)) w)
  | None => (tt, w)
  end.

Fixpoint run_callbacks (timestamp : Q) (hs : list nat) : M unit :=
  match hs with
  | [] => ret tt
  | h :: hs' => run_callback timestamp h ;; run_callbacks timestamp hs'
  end.

(** One display refresh: the callbacks pending at its beginning run, in
    order, with the same timestamp. *)
Definition tick (timestamp : Q) : M unit := fun w =>
  run_callbacks timestamp (map fst (callbacks w)) w.

(** Invoking a listener: a function is called with [this] bound to the
    target it is registered on. *)
Definition invoke (l : AnimationElement * EventType * Value) : M unit :=
  fun w =>
    if existsb (listener_eqb l) (listeners w) then
      match l with
      | (target, _, handler r) => animationCompleteHandler r (object target) w
      | _ => (tt, w)
      end
    else (tt, w).

Fixpoint invoke_all (ls : list (AnimationElement * EventType * Value))
  : M unit :=
  match ls with
  | [] => ret tt
  | l :: ls' => invoke l ;; invoke_all ls'
  end.

(** An event of type [type] reaching [target]: the listeners registered
    there for that type when delivery starts are invoked in order, one
    removed in the meantime being skipped. *)
Definition dispatchEvent (target : AnimationElement) (type : EventType)
  : M unit := fun w =>
  invoke_all
    (filter (fun l => element_eqb (fst (fst l)) target
                      && type_eqb (snd (fst l)) type) (listeners w)) w.

(** An event travels along a path: its target first, then the ancestors
    of the target, the window last.  The listeners of [addListeners] are
    registered without the capture flag, so those of an object on the
    path are invoked when the event, bubbling, reaches that object. *)
Fixpoint propagate (path : list AnimationElement) (type : EventType)
  : M unit :=
  match path with
  | [] => ret tt
  | target :: path' => dispatchEvent target type ;; propagate path' type
  end.

(** What can happen on the page. *)
Inductive Event : Type :=
| Call (userOptions : option PartialOptions)   (* animate(step, userOptions) *)
| Tick (timestamp : Q)
| Signal (target : AnimationElement) (type : EventType).

Definition happen (e : Event) (w : World) : World :=
  match e with
  | Call u => exec (animate u) w
  | Tick t => exec (tick t) w
  | Signal e t => exec (dispatchEvent e t) w
  end.

Definition play (es : list Event) (w : World) : World :=
  fold_left (fun w e => happen e w) es w.

(** What [runs] holds for a run that has not been created. *)
Definition blank_run : Run :=
  mkRun false window linear 0 None None None [] 0%nat.

(** The page before any call: [defaultOptions] as declared, no listener,
    no callback, handles counted from 1. *)
Definition initial_world : World :=
  mkWorld (mkOptions true window linear 1000) [] [] 1%nat
          (fun _ => blank_run) 0%nat.

(** The pending animation frame callbacks that belong to run [r]. *)
Definition callbacks_of (r : RunId) (cs : list (nat * RunId))
  : list (nat * RunId) :=
  filter (fun c => Nat.eqb (snd c) r) cs.

Definition pending (r : RunId) (w : World) : list (nat * RunId) :=
  callbacks_of r (callbacks w).

(** Whether [frame], invoked at [timestamp] on a run in state [x], takes
    its first branch. *)
Definition continues (timestamp : Q) (x : Run) : bool :=
  shouldContinue (start_or (start x) timestamp) timestamp (run_duration x).

(** What one invocation of [frame] at [timestamp] makes of the variables
    of its own run, [h] being the handle the host hands out next.  It
    is the statement of [frame_runs] below, and serves to say that a
    display refresh runs each pending run by one such invocation. *)
Definition after_frame (timestamp : Q) (h : nat) (x : Run) : Run :=
  let s := start_or (start x) timestamp in
  let it :=
    match nextValueIterator x with
    | Some it => it
    | None => getEasingValueIterator s (run_duration x) (run_easing x)
    end in
  if continues timestamp x then
    mkRun (run_cancelOnUserAction x) (run_element x) (run_easing x)
          (run_duration x) (Some h) (Some s) (Some it)
          (step_calls x ++ [iterate it timestamp]) (resolve_calls x)
  else
    mkRun (run_cancelOnUserAction x) (run_element x) (run_easing x)
          (run_duration x) (requestId x) (Some s) (Some it)
          (step_calls x ++ [1]) (S (resolve_calls x)).

(** Well-formedness of the page: handles in use were handed out, no
    handle is pending twice, a run remembers only handles of its own
    callbacks, callbacks and registered handlers belong to runs that
    were created, and a run has at most one callback pending. *)
Record WF (w : World) : Prop := mkWF {
  wf_handles : forall h r, In (h, r) (callbacks w) -> (h < next_handle w)%nat;
  wf_requestId :
    forall r h, requestId (runs w r) = Some h -> (h < next_handle w)%nat;
  wf_nodup : NoDup (map fst (callbacks w));
  wf_owner :
    forall h r r', In (h, r) (callbacks w) ->
                   requestId (runs w r') = Some h -> r' = r;
  wf_created : forall h r, In (h, r) (callbacks w) -> (r < next_run w)%nat;
  wf_single : forall r, (List.length (pending r w) <= 1)%nat;
  wf_listeners :
    forall e t r, In (e, t, handler r) (listeners w) -> (r < next_run w)%nat
}.

(** *** Predicates the statements use *)

(** The options a call works with. *)
Definition effective (u : option PartialOptions) (w : World)
  : AnimationOptions :=
  Object_assign (defaultOptions w) u.

Definition fresh_run (o : AnimationOptions) : Run :=
  mkRun (cancelOnUserAction o) (element o) (easing o) (duration o)
        None None None [] 0%nat.

(** A run none of whose handlers is registered. *)
Definition unregistered (r : RunId) (w : World) : Prop :=
  forall e t, ~ In (e, t, handler r) (listeners w).

(** A run that has had its first tick at [ts0]: the iterator was made
    then, and the recorded start is not before [ts0]. *)
Definition ticking (o : AnimationOptions) (ts0 : Q) (x : Run) : Prop :=
  run_duration x = duration o /\ run_easing x = easing o /\
  nextValueIterator x
  = Some (getEasingValueIterator ts0 (duration o) (easing o)) /\
  exists s, start x = Some s /\ ts0 <= s.

(** The value the specification gives for a tick at [ts] of a run
    started at [ts0]. *)
Definition eased (o : AnimationOptions) (ts0 ts : Q) : Q :=
  easing o (1 - (duration o - (ts - ts0)) / duration o).

(** Where a run stands: waiting for a tick with [resolve] not yet
    invoked, or done: [resolve] invoked once, after a last invocation of
    [step] with 1, and no tick pending. *)
Definition waiting (r : RunId) (w : World) : Prop :=
  resolve_calls (runs w r) = 0%nat /\ exists h, pending r w = [(h, r)].

Definition done (r : RunId) (w : World) : Prop :=
  resolve_calls (runs w r) = 1%nat /\ pending r w = [] /\
  exists calls, step_calls (runs w r) = calls ++ [1].

Definition quiet (r : RunId) (w : World) : Prop :=
  WF w /\ (r < next_run w)%nat /\ unregistered r w /\
  (waiting r w \/ done r w).

(** Two states of a run that differ at most in the handle the run
    remembers. *)
Definition same_run (x x' : Run) : Prop :=
  set_requestId None x = set_requestId None x'.

Definition is_signal (e : Event) : bool :=
  match e with
  | Signal _ _ => true
  | _ => false
  end.

(** A history without its signals. *)
Definition without_signals (es : list Event) : list Event :=
  filter (fun e => negb (is_signal e)) es.

(** Every registered listener is a handler of some run. *)
Definition only_handlers (w : World) : Prop :=
  forall e t v, In (e, t, v) (listeners w) -> exists r, v = handler r.

(** *** Predicates for further statements *)

(** A run that has had a tick and waits for the next one remembers the
    handle of the callback it waits for. *)
Definition linked (r : RunId) (w : World) : Prop :=
  forall h, pending r w = [(h, r)] ->
            nextValueIterator (runs w r) <> None ->
            requestId (runs w r) = Some h.

(** Handlers are registered on the element of their run, and no listener
    is registered twice. *)
Definition placed (w : World) : Prop :=
  NoDup (listeners w) /\
  forall e t r, In (e, t, handler r) (listeners w) ->
                e = run_element (runs w r).

(** The four listeners [addListeners] registers, in its order. *)
Definition four_listeners (e : AnimationElement) (v : Value)
  : list (AnimationElement * EventType * Value) :=
  [(e, wheel, v); (e, touchstart, v); (e, mousedown, v); (e, keydown, v)].

(** The [userOptions] of the calls of a history, in order. *)
Fixpoint call_options (es : list Event) : list (option PartialOptions) :=
  match es with
  | [] => []
  | Call u :: es' => u :: call_options es'
  | _ :: es' => call_options es'
  end.

(** The value a property has after a list of [userOptions]: that of the
    last one that has the property, and [declared] if none has. *)
Definition latest {A : Type} (get : PartialOptions -> option A)
           (declared : A) (us : list (option PartialOptions)) : A :=
  fold_left (fun acc u =>
               match u with
               | Some s => match get s with Some a => a | None => acc end
               | None => acc
               end) us declared.

(** How many listeners of a list have the handler of run [r]. *)
Definition handlers_of (r : RunId)
           (ls : list (AnimationElement * EventType * Value)) : nat :=
  List.length (filter (fun l => value_eqb (snd l) (handler r)) ls).

(** The listeners a delivery to [target] of [type] invokes. *)
Definition delivery (target : AnimationElement) (type : EventType)
           (w : World) : list (AnimationElement * EventType * Value) :=
  filter (fun l => element_eqb (fst (fst l)) target
                   && type_eqb (snd (fst l)) type) (listeners w).

(** The calls of a history that register listeners, [o] being what
    [defaultOptions] holds when the history begins. *)
Fixpoint cancelling_calls (es : list Event) (o : AnimationOptions) : nat :=
  match es with
  | [] => 0
  | Call u :: es' =>
      let o' := Object_assign o u in
      ((if cancelOnUserAction o' then 1 else 0) + cancelling_calls es' o')%nat
  | _ :: es' => cancelling_calls es' o
  end.

(** The handle a run remembers while it has had no tick. *)
Definition handle_before_first_tick (x : Run) : option nat :=
  match nextValueIterator x with
  | None => requestId x
  | Some _ => None
  end.

End Animate.

(* ================================================================= *)
(** ** Tactics *)

(** Bounds on the powers of a number of the unit interval, and of its
    lower half. *)
Ltac powers u :=
  assert (0 <= u * u <= 1 * 1) by nra;
  assert (0 <= u * u * u <= 1 * 1 * 1) by nra;
  assert (0 <= u * u * u * u <= 1 * 1 * 1 * 1) by nra;
  assert (0 <= u * u * u * u * u <= 1 * 1 * 1 * 1 * 1)
    by nra.

Ltac half_powers u :=
  assert (0 <= u * u <= (1 # 2) * (1 # 2)) by nra;
  assert (0 <= u * u * u <= (1 # 2) * (1 # 2) * (1 # 2))
    by nra;
  assert (0 <= u * u * u * u <= (1 # 2) * (1 # 2) * (1 # 2) * (1 # 2))
    by nra;
  assert (0 <= u * u * u * u * u
          <= (1 # 2) * (1 # 2) * (1 # 2) * (1 # 2) * (1 # 2))
    by nra.

Ltac split_half t E :=
  destruct (Qlt_bool t 0.5) eqn:E.


(* ================================================================= *)
(** ** Facts about numbers *)

Lemma Qlt_bool_iff (x y : Q) : Qlt_bool x y = true <-> x < y.
Proof.
  unfold Qlt_bool. rewrite negb_true_iff. split; intro H.
  - apply Qnot_le_lt. intro L. apply Qle_bool_iff in L. congruence.
  - destruct (Qle_bool y x) eqn:E; auto. apply Qle_bool_iff in E. lra.
Qed.

Lemma Qlt_bool_false_iff (x y : Q) : Qlt_bool x y = false <-> y <= x.
Proof.
  unfold Qlt_bool. rewrite negb_false_iff. apply Qle_bool_iff.
Qed.

(** The test is a test of the numbers, not of their representation. *)
Lemma Qlt_bool_half (t : Q) : Qlt_bool t 0.5 = Qlt_bool t (1 # 2).
Proof.
  destruct (Qlt_bool t (1 # 2)) eqn:E.
  - apply Qlt_bool_iff in E. apply Qlt_bool_iff. lra.
  - apply Qlt_bool_false_iff in E. apply Qlt_bool_false_iff. lra.
Qed.

Lemma truthy_false_iff (x : Q) : truthy x = false <-> x == 0.
Proof.
  unfold truthy. rewrite negb_false_iff. apply Qeq_bool_iff.
Qed.

Lemma truthy_true_iff (x : Q) : truthy x = true <-> ~ x == 0.
Proof.
  unfold truthy. rewrite negb_true_iff. split; intro H.
  - intro E. apply Qeq_bool_iff in E. congruence.
  - destruct (Qeq_bool x 0) eqn:E; auto. apply Qeq_bool_iff in E. tauto.
Qed.

(* ================================================================= *)
(** ** The easing catalog *)

Section EasingFacts.

Import Easing.

(** Each function against its row of the table. *)

Lemma linear_table t : linear t == EasingTable.linear t.
Proof. reflexivity. Qed.

Lemma easeInQuad_table t : easeInQuad t == EasingTable.easeInQuad t.
Proof. unfold easeInQuad, EasingTable.easeInQuad. ring. Qed.

Lemma easeOutQuad_table t : easeOutQuad t == EasingTable.easeOutQuad t.
Proof. reflexivity. Qed.

Lemma easeInOutQuad_table t :
  easeInOutQuad t == EasingTable.easeInOutQuad t.
Proof.
  unfold easeInOutQuad, EasingTable.easeInOutQuad.
  rewrite Qlt_bool_half. destruct (Qlt_bool t (1 # 2)); ring.
Qed.

Lemma easeInCubic_table t : easeInCubic t == EasingTable.easeInCubic t.
Proof. unfold easeInCubic, EasingTable.easeInCubic. ring. Qed.

Lemma easeOutCubic_table t : easeOutCubic t == EasingTable.easeOutCubic t.
Proof. unfold easeOutCubic, EasingTable.easeOutCubic. cbv zeta. ring. Qed.

Lemma easeInOutCubic_table t :
  easeInOutCubic t == EasingTable.easeInOutCubic t.
Proof.
  unfold easeInOutCubic, EasingTable.easeInOutCubic.
  rewrite Qlt_bool_half. destruct (Qlt_bool t (1 # 2)); ring.
Qed.

Lemma easeInQuart_table t : easeInQuart t == EasingTable.easeInQuart t.
Proof. unfold easeInQuart, EasingTable.easeInQuart. ring. Qed.

Lemma easeOutQuart_table t : easeOutQuart t == EasingTable.easeOutQuart t.
Proof. unfold easeOutQuart, EasingTable.easeOutQuart. cbv zeta. ring. Qed.

Lemma easeInOutQuart_table t :
  easeInOutQuart t == EasingTable.easeInOutQuart t.
Proof.
  unfold easeInOutQuart, EasingTable.easeInOutQuart.
  rewrite Qlt_bool_half. destruct (Qlt_bool t (1 # 2)); cbv zeta; ring.
Qed.

Lemma easeInQuint_table t : easeInQuint t == EasingTable.easeInQuint t.
Proof. unfold easeInQuint, EasingTable.easeInQuint. ring. Qed.

Lemma easeOutQuint_table t : easeOutQuint t == EasingTable.easeOutQuint t.
Proof. unfold easeOutQuint, EasingTable.easeOutQuint. cbv zeta. ring. Qed.

Lemma easeInOutQuint_table t :
  easeInOutQuint t == EasingTable.easeInOutQuint t.
Proof.
  unfold easeInOutQuint, EasingTable.easeInOutQuint.
  rewrite Qlt_bool_half. destruct (Qlt_bool t (1 # 2)); cbv zeta; ring.
Qed.

(** C8.  The exported catalog has exactly the thirteen names of the
    specification's table, in the table's order and without repetition,
    and each entry agrees with the formula of its row at every input. *)
Theorem C8_catalog_is_the_table :
  map fst EasingFunctions = map fst EasingTable.table /\
  List.length EasingFunctions = 13%nat /\
  NoDup (map fst EasingFunctions) /\
  Forall2 (fun entry row => fst entry = fst row /\
                            forall t : Q, snd entry t == snd row t)
          EasingFunctions EasingTable.table.
Proof.
  split; [reflexivity|]. split; [reflexivity|]. split.
  - unfold EasingFunctions; simpl.
    repeat (constructor;
            [ simpl; intro H;
              repeat (destruct H as [H | H]; [discriminate H|]);
              exact H | ]).
    constructor.
  - unfold EasingFunctions, EasingTable.table.
    repeat (apply Forall2_cons; [split; [reflexivity | intro t; simpl] | ]);
      try apply Forall2_nil.
    + apply linear_table.
    + apply easeInQuad_table.
    + apply easeOutQuad_table.
    + apply easeInOutQuad_table.
    + apply easeInCubic_table.
    + apply easeOutCubic_table.
    + apply easeInOutCubic_table.
    + apply easeInQuart_table.
    + apply easeOutQuart_table.
    + apply easeInOutQuart_table.
    + apply easeInQuint_table.
    + apply easeOutQuint_table.
    + apply easeInOutQuint_table.
Qed.

(** C9.  Every function of the exported catalog maps 0 to 0 and 1 to
    1. *)
Theorem C9_catalog_endpoints (name : string) (f : EasingFunction) :
  In (name, f) EasingFunctions -> f 0 == 0 /\ f 1 == 1.
Proof.
  unfold EasingFunctions. simpl. intro H.
  repeat (destruct H as [H | H];
          [ injection H as _ <-; split; vm_compute; reflexivity | ]).
  contradiction.
Qed.

Lemma C9_catalog_endpoints_witness :
  In ("easeInOutQuart"%string, easeInOutQuart) EasingFunctions /\
  easeInOutQuart 0 == 0 /\ easeInOutQuart 1 == 1.
Proof.
  assert (H : In ("easeInOutQuart"%string, easeInOutQuart) EasingFunctions)
    by (simpl; tauto).
  split; [exact H | exact (C9_catalog_endpoints _ _ H)].
Defined.

(** The range of each function on the unit interval. *)

Lemma linear_range t : 0 <= t <= 1 -> 0 <= linear t <= 1.
Proof. unfold linear. tauto. Qed.

Lemma easeInQuad_range t : 0 <= t <= 1 -> 0 <= easeInQuad t <= 1.
Proof. intro H. unfold easeInQuad. powers t. lra. Qed.

Lemma easeOutQuad_range t : 0 <= t <= 1 -> 0 <= easeOutQuad t <= 1.
Proof.
  intro H. unfold easeOutQuad. set (u := 1 - t).
  assert (Hu : 0 <= u <= 1) by (unfold u; lra). powers u.
  assert (E : t * (2 - t) == 1 - u * u) by (unfold u; ring). lra.
Qed.

Lemma easeInOutQuad_range t : 0 <= t <= 1 -> 0 <= easeInOutQuad t <= 1.
Proof.
  intro H. unfold easeInOutQuad. split_half t E;
    [apply Qlt_bool_iff in E | apply Qlt_bool_false_iff in E].
  - assert (Ht : 0 <= t <= 1 # 2) by lra. half_powers t.
    assert (2 * t * t == 2 * (t * t)) by ring. lra.
  - set (u := 1 - t). assert (Hu : 0 <= u <= 1 # 2) by (unfold u; lra).
    half_powers u.
    assert (- (1) + (4 - 2 * t) * t == 1 - 2 * (u * u)) by (unfold u; ring).
    lra.
Qed.

Lemma easeInCubic_range t : 0 <= t <= 1 -> 0 <= easeInCubic t <= 1.
Proof. intro H. unfold easeInCubic. powers t. lra. Qed.

Lemma easeOutCubic_range t : 0 <= t <= 1 -> 0 <= easeOutCubic t <= 1.
Proof.
  intro H. unfold easeOutCubic. cbv zeta. set (u := 1 - t).
  assert (Hu : 0 <= u <= 1) by (unfold u; lra). powers u.
  assert ((t - 1) * (t - 1) * (t - 1) + 1 == 1 - u * u * u)
    by (unfold u; ring).
  lra.
Qed.

Lemma easeInOutCubic_range t : 0 <= t <= 1 -> 0 <= easeInOutCubic t <= 1.
Proof.
  intro H. unfold easeInOutCubic. split_half t E;
    [apply Qlt_bool_iff in E | apply Qlt_bool_false_iff in E].
  - assert (Ht : 0 <= t <= 1 # 2) by lra. half_powers t.
    assert (4 * t * t * t == 4 * (t * t * t)) by ring. lra.
  - set (u := 1 - t). assert (Hu : 0 <= u <= 1 # 2) by (unfold u; lra).
    half_powers u.
    assert ((t - 1) * (2 * t - 2) * (2 * t - 2) + 1 == 1 - 4 * (u * u * u))
      by (unfold u; ring).
    lra.
Qed.

Lemma easeInQuart_range t : 0 <= t <= 1 -> 0 <= easeInQuart t <= 1.
Proof. intro H. unfold easeInQuart. powers t. lra. Qed.

Lemma easeOutQuart_range t : 0 <= t <= 1 -> 0 <= easeOutQuart t <= 1.
Proof.
  intro H. unfold easeOutQuart. cbv zeta. set (u := 1 - t).
  assert (Hu : 0 <= u <= 1) by (unfold u; lra). powers u.
  assert (1 - (t - 1) * (t - 1) * (t - 1) * (t - 1) == 1 - u * u * u * u)
    by (unfold u; ring).
  lra.
Qed.

Lemma easeInOutQuart_range t : 0 <= t <= 1 -> 0 <= easeInOutQuart t <= 1.
Proof.
  intro H. unfold easeInOutQuart. split_half t E;
    [apply Qlt_bool_iff in E | apply Qlt_bool_false_iff in E].
  - assert (Ht : 0 <= t <= 1 # 2) by lra. half_powers t.
    assert (8 * t * t * t * t == 8 * (t * t * t * t)) by ring. lra.
  - cbv zeta. set (u := 1 - t).
    assert (Hu : 0 <= u <= 1 # 2) by (unfold u; lra). half_powers u.
    assert (1 - 8 * (t - 1) * (t - 1) * (t - 1) * (t - 1)
            == 1 - 8 * (u * u * u * u)) by (unfold u; ring).
    lra.
Qed.

Lemma easeInQuint_range t : 0 <= t <= 1 -> 0 <= easeInQuint t <= 1.
Proof. intro H. unfold easeInQuint. powers t. lra. Qed.

Lemma easeOutQuint_range t : 0 <= t <= 1 -> 0 <= easeOutQuint t <= 1.
Proof.
  intro H. unfold easeOutQuint. cbv zeta. set (u := 1 - t).
  assert (Hu : 0 <= u <= 1) by (unfold u; lra). powers u.
  assert (1 + (t - 1) * (t - 1) * (t - 1) * (t - 1) * (t - 1)
          == 1 - u * u * u * u * u) by (unfold u; ring).
  lra.
Qed.

Lemma easeInOutQuint_range t : 0 <= t <= 1 -> 0 <= easeInOutQuint t <= 1.
Proof.
  intro H. unfold easeInOutQuint. split_half t E;
    [apply Qlt_bool_iff in E | apply Qlt_bool_false_iff in E].
  - assert (Ht : 0 <= t <= 1 # 2) by lra. half_powers t.
    assert (16 * t * t * t * t * t == 16 * (t * t * t * t * t)) by ring.
    lra.
  - cbv zeta. set (u := 1 - t).
    assert (Hu : 0 <= u <= 1 # 2) by (unfold u; lra). half_powers u.
    assert (1 + 16 * (t - 1) * (t - 1) * (t - 1) * (t - 1) * (t - 1)
            == 1 - 16 * (u * u * u * u * u)) by (unfold u; ring).
    lra.
Qed.

(** C10.  On the unit interval no function of the exported catalog
    leaves the unit interval. *)
Theorem C10_catalog_range (name : string) (f : EasingFunction) (t : Q) :
  In (name, f) EasingFunctions -> 0 <= t <= 1 -> 0 <= f t <= 1.
Proof.
  unfold EasingFunctions. simpl. intros H Ht.
  repeat (destruct H as [H | H]; [ injection H as _ <- | ]);
    try contradiction.
  - now apply linear_range.
  - now apply easeInQuad_range.
  - now apply easeOutQuad_range.
  - now apply easeInOutQuad_range.
  - now apply easeInCubic_range.
  - now apply easeOutCubic_range.
  - now apply easeInOutCubic_range.
  - now apply easeInQuart_range.
  - now apply easeOutQuart_range.
  - now apply easeInOutQuart_range.
  - now apply easeInQuint_range.
  - now apply easeOutQuint_range.
  - now apply easeInOutQuint_range.
Qed.

Lemma C10_catalog_range_witness :
  In ("easeInOutQuint"%string, easeInOutQuint) EasingFunctions /\
  0 <= 3 # 4 <= 1 /\ 0 <= easeInOutQuint (3 # 4) <= 1.
Proof.
  assert (H : In ("easeInOutQuint"%string, easeInOutQuint) EasingFunctions)
    by (simpl; tauto).
  assert (Ht : 0 <= 3 # 4 <= 1) by (split; discriminate).
  split; [exact H | split; [exact Ht | exact (C10_catalog_range _ _ _ H Ht)]].
Defined.

End EasingFacts.

(* ================================================================= *)
(** ** The animation driver *)

Section AnimateFacts.

Import Easing Animate.

(** *** Equality tests *)

Lemma element_eqb_eq a b : element_eqb a b = true <-> a = b.
Proof.
  destruct a, b; simpl; split; intro H;
    try discriminate; try reflexivity.
  - apply Nat.eqb_eq in H. now subst.
  - injection H as ->. apply Nat.eqb_refl.
Qed.

Lemma type_eqb_eq a b : type_eqb a b = true <-> a = b.
Proof. destruct a, b; simpl; split; intro H; congruence. Qed.

Lemma value_eqb_eq a b : value_eqb a b = true <-> a = b.
Proof.
  destruct a, b; simpl; split; intro H;
    try discriminate; try reflexivity.
  - apply element_eqb_eq in H. now subst.
  - injection H as ->. now apply element_eqb_eq.
  - apply Nat.eqb_eq in H. now subst.
  - injection H as ->. apply Nat.eqb_refl.
Qed.

Lemma listener_eqb_eq a b : listener_eqb a b = true <-> a = b.
Proof.
  destruct a as [[e t] v], b as [[e' t'] v']. simpl.
  rewrite !andb_true_iff, element_eqb_eq, type_eqb_eq, value_eqb_eq.
  split; [intros [[-> ->] ->]; reflexivity | intro H; now inversion H].
Qed.

(** *** Lists of callbacks and of listeners *)

Lemma In_remove_callback h c cs :
  In c (remove_callback h cs) <-> In c cs /\ fst c <> h.
Proof.
  unfold remove_callback. rewrite filter_In, negb_true_iff, Nat.eqb_neq.
  tauto.
Qed.

Lemma In_callbacks_of r c cs :
  In c (callbacks_of r cs) <-> In c cs /\ snd c = r.
Proof. unfold callbacks_of. now rewrite filter_In, Nat.eqb_eq. Qed.

Lemma callbacks_of_app r cs cs' :
  callbacks_of r (cs ++ cs') = callbacks_of r cs ++ callbacks_of r cs'.
Proof. apply filter_app. Qed.

Lemma callbacks_of_remove r h cs :
  callbacks_of r (remove_callback h cs)
  = remove_callback h (callbacks_of r cs).
Proof.
  unfold callbacks_of, remove_callback.
  induction cs as [|c cs IH]; simpl; auto.
  destruct (Nat.eqb (fst c) h) eqn:E1, (Nat.eqb (snd c) r) eqn:E2; simpl;
    rewrite ?E1, ?E2; simpl; rewrite ?IH; auto.
Qed.

Lemma remove_callback_absent h cs :
  (forall c, In c cs -> fst c <> h) -> remove_callback h cs = cs.
Proof.
  intro H. unfold remove_callback.
  induction cs as [|c cs IH]; simpl; auto.
  destruct (Nat.eqb (fst c) h) eqn:E; simpl.
  - apply Nat.eqb_eq in E. exfalso. apply (H c); simpl; auto.
  - f_equal. apply IH. intros c' Hc'. apply H. now right.
Qed.

Lemma NoDup_remove_callback h cs :
  NoDup (map fst cs) -> NoDup (map fst (remove_callback h cs)).
Proof.
  unfold remove_callback. induction cs as [|c cs IH]; simpl; intro H; auto.
  inversion H as [|? ? Hn Hd]; subst.
  destruct (Nat.eqb (fst c) h); simpl; auto.
  constructor; auto. intro Hin. apply Hn.
  apply in_map_iff in Hin. destruct Hin as [c' [E Hc']].
  apply filter_In in Hc'. apply in_map_iff. exists c'. tauto.
Qed.

Lemma length_remove_callback h cs :
  (List.length (remove_callback h cs) <= List.length cs)%nat.
Proof. apply filter_length_le. Qed.

Lemma incl_remove_listener l ls : incl (remove_listener l ls) ls.
Proof. unfold remove_listener. apply incl_filter. Qed.

Lemma In_remove_listener l l' ls :
  In l' (remove_listener l ls) <-> In l' ls /\ l' <> l.
Proof.
  unfold remove_listener. rewrite filter_In, negb_true_iff.
  split; intros [H1 H2]; split; auto.
  - intro E. subst. 
    assert (listener_eqb l l = true) by now apply listener_eqb_eq.
    congruence.
  - destruct (listener_eqb l l') eqn:E; auto.
    apply listener_eqb_eq in E. congruence.
Qed.

(** *** The completion handler, field by field *)

Lemma handler_runs r this w r' :
  runs (exec (animationCompleteHandler r this) w) r'
  = if Nat.eqb r' r then log_resolve (runs w r) else runs w r'.
Proof.
  unfold animationCompleteHandler, exec, bind, get_run, cancelAnimationFrame,
    when, removeListeners, removeEventListener, resolve, ret.
  destruct (requestId (runs w r)), (run_cancelOnUserAction (runs w r));
    simpl; destruct (Nat.eqb r' r) eqn:E; auto;
    apply Nat.eqb_eq in E; now subst.
Qed.

Lemma handler_callbacks r this w :
  callbacks (exec (animationCompleteHandler r this) w)
  = match requestId (runs w r) with
    | Some h => remove_callback h (callbacks w)
    | None => callbacks w
    end.
Proof.
  unfold animationCompleteHandler, exec, bind, get_run, cancelAnimationFrame,
    when, removeListeners, removeEventListener, resolve, ret.
  destruct (requestId (runs w r)), (run_cancelOnUserAction (runs w r));
    reflexivity.
Qed.

Lemma handler_listeners r this w :
  listeners (exec (animationCompleteHandler r this) w)
  = if run_cancelOnUserAction (runs w r) then
      let e := run_element (runs w r) in
      remove_listener (e, keydown, this)
        (remove_listener (e, mousedown, this)
           (remove_listener (e, touchstart, this)
              (remove_listener (e, wheel, this) (listeners w))))
    else listeners w.
Proof.
  unfold animationCompleteHandler, exec, bind, get_run, cancelAnimationFrame,
    when, removeListeners, removeEventListener, resolve, ret.
  destruct (requestId (runs w r)), (run_cancelOnUserAction (runs w r));
    reflexivity.
Qed.

Lemma handler_counters r this w :
  next_handle (exec (animationCompleteHandler r this) w) = next_handle w /\
  next_run (exec (animationCompleteHandler r this) w) = next_run w /\
  defaultOptions (exec (animationCompleteHandler r this) w)
  = defaultOptions w.
Proof.
  unfold animationCompleteHandler, exec, bind, get_run, cancelAnimationFrame,
    when, removeListeners, removeEventListener, resolve, ret.
  destruct (requestId (runs w r)), (run_cancelOnUserAction (runs w r));
    simpl; auto.
Qed.

(** *** One invocation of [frame], field by field *)

Lemma frame_unfold r timestamp w :
  exec (frame r timestamp) w
  = let x := runs w r in
    let s := start_or (start x) timestamp in
    let it :=
      match nextValueIterator x with
      | Some it => it
      | None => getEasingValueIterator s (run_duration x) (run_easing x)
      end in
    let w2 := update_run r (set_nextValueIterator (Some it))
                         (update_run r (set_start (Some s)) w) in
    if continues timestamp x then
      update_run r (set_requestId (Some (next_handle w)))
        (exec (requestAnimationFrame r)
              (update_run r (log_step (iterate it timestamp)) w2))
    else
      exec (animationCompleteHandler r undefined)
           (update_run r (log_step 1) w2).
Proof.
  unfold frame, continues, exec, bind, get_run, modify_run, step. simpl.
  destruct (shouldContinue _ _ _); reflexivity.
Qed.

Lemma frame_runs r timestamp w r' :
  runs (exec (frame r timestamp) w) r'
  = if Nat.eqb r' r then after_frame timestamp (next_handle w) (runs w r)
    else runs w r'.
Proof.
  rewrite frame_unfold. unfold after_frame. cbv zeta.
  destruct (continues timestamp (runs w r)).
  - simpl. rewrite ?Nat.eqb_refl. destruct (Nat.eqb r' r) eqn:E; auto.
    apply Nat.eqb_eq in E. subst. rewrite ?Nat.eqb_refl. reflexivity.
  - rewrite handler_runs. simpl. rewrite ?Nat.eqb_refl.
    destruct (Nat.eqb r' r) eqn:E; auto.
Qed.

Lemma frame_callbacks r timestamp w :
  callbacks (exec (frame r timestamp) w)
  = if continues timestamp (runs w r)
    then callbacks w ++ [(next_handle w, r)]
    else match requestId (runs w r) with
         | Some h => remove_callback h (callbacks w)
         | None => callbacks w
         end.
Proof.
  rewrite frame_unfold. cbv zeta.
  destruct (continues timestamp (runs w r)).
  - reflexivity.
  - rewrite handler_callbacks. simpl. rewrite ?Nat.eqb_refl. reflexivity.
Qed.

Lemma frame_next_handle r timestamp w :
  next_handle (exec (frame r timestamp) w)
  = if continues timestamp (runs w r)
    then S (next_handle w) else next_handle w.
Proof.
  rewrite frame_unfold. cbv zeta.
  destruct (continues timestamp (runs w r)).
  - reflexivity.
  - now rewrite (proj1 (handler_counters _ _ _)).
Qed.

Lemma frame_next_run r timestamp w :
  next_run (exec (frame r timestamp) w) = next_run w.
Proof.
  rewrite frame_unfold. cbv zeta.
  destruct (continues timestamp (runs w r)).
  - reflexivity.
  - now rewrite (proj1 (proj2 (handler_counters _ _ _))).
Qed.

Lemma frame_defaultOptions r timestamp w :
  defaultOptions (exec (frame r timestamp) w) = defaultOptions w.
Proof.
  rewrite frame_unfold. cbv zeta.
  destruct (continues timestamp (runs w r)).
  - reflexivity.
  - now rewrite (proj2 (proj2 (handler_counters _ _ _))).
Qed.

Lemma frame_listeners r timestamp w :
  incl (listeners (exec (frame r timestamp) w)) (listeners w).
Proof.
  rewrite frame_unfold. cbv zeta.
  destruct (continues timestamp (runs w r)).
  - apply incl_refl.
  - rewrite handler_listeners.
    destruct (run_cancelOnUserAction _); simpl; [|apply incl_refl].
    repeat (eapply incl_tran; [apply incl_remove_listener|]).
    apply incl_refl.
Qed.

Lemma handler_listeners_incl r this w :
  incl (listeners (exec (animationCompleteHandler r this) w)) (listeners w).
Proof.
  rewrite handler_listeners.
  destruct (run_cancelOnUserAction _); simpl; [|apply incl_refl].
  repeat (eapply incl_tran; [apply incl_remove_listener|]).
  apply incl_refl.
Qed.

(** *** Well-formedness is kept *)

Lemma WF_initial : WF initial_world.
Proof.
  constructor; simpl; try contradiction; try discriminate.
  - constructor.
  - intros; lia.
Qed.

(** Well-formedness reads the callbacks, the two counters and the
    handles the runs remember, and nothing else. *)
Lemma WF_transfer w w' :
  callbacks w' = callbacks w ->
  next_handle w' = next_handle w ->
  next_run w' = next_run w ->
  (forall r, requestId (runs w' r) = requestId (runs w r)) ->
  incl (listeners w') (listeners w) ->
  WF w -> WF w'.
Proof.
  intros Ec Eh Er Eq Hl [H1 H2 H3 H4 H5 H6 H7]. constructor.
  - intros h r. rewrite Ec, Eh. apply H1.
  - intros r h. rewrite Eq, Eh. apply H2.
  - rewrite Ec. exact H3.
  - intros h r r'. rewrite Ec, Eq. apply H4.
  - intros h r. rewrite Ec, Er. apply H5.
  - intro r. unfold pending. rewrite Ec. apply H6.
  - intros e t r Hin. rewrite Er. eapply H7, Hl, Hin.
Qed.

Lemma WF_remove h w :
  WF w -> WF (set_callbacks (remove_callback h (callbacks w)) w).
Proof.
  intros [H1 H2 H3 H4 H5 H6 H7]. constructor; simpl.
  - intros h' r Hin. apply In_remove_callback in Hin. eapply H1, Hin.
  - exact H2.
  - now apply NoDup_remove_callback.
  - intros h' r r' Hin. apply In_remove_callback in Hin. eapply H4, Hin.
  - intros h' r Hin. apply In_remove_callback in Hin. eapply H5, Hin.
  - intro r. unfold pending. simpl. rewrite callbacks_of_remove.
    eapply Nat.le_trans; [apply length_remove_callback | apply H6].
  - exact H7.
Qed.

Lemma handler_requestId r this w r' :
  requestId (runs (exec (animationCompleteHandler r this) w) r')
  = requestId (runs w r').
Proof.
  rewrite handler_runs. destruct (Nat.eqb r' r) eqn:E; auto.
  apply Nat.eqb_eq in E. now subst.
Qed.

Lemma WF_handler r this w :
  WF w -> WF (exec (animationCompleteHandler r this) w).
Proof.
  intro H. destruct (handler_counters r this w) as [En [Er _]].
  pose proof (handler_callbacks r this w) as Ec.
  destruct (requestId (runs w r)) as [h|].
  - apply WF_transfer
      with (w := set_callbacks (remove_callback h (callbacks w)) w);
      [ exact Ec | exact En | exact Er
      | intro r'; exact (handler_requestId r this w r')
      | exact (handler_listeners_incl r this w)
      | now apply WF_remove ].
  - apply WF_transfer with (w := w);
      [ exact Ec | exact En | exact Er | apply handler_requestId
      | apply handler_listeners_incl | exact H ].
Qed.

Lemma WF_frame r timestamp w :
  WF w -> pending r w = [] -> (r < next_run w)%nat ->
  WF (exec (frame r timestamp) w).
Proof.
  intros H Hp Hr.
  destruct (continues timestamp (runs w r)) eqn:G.
  - destruct H as [H1 H2 H3 H4 H5 H6 H7]. constructor.
    + intros h' r'. rewrite frame_callbacks, frame_next_handle, G.
      intro Hin. apply in_app_or in Hin. destruct Hin as [Hin | [E | []]].
      * apply H1 in Hin. lia.
      * inversion E; subst. lia.
    + intros r' h'. rewrite frame_runs, frame_next_handle, G.
      destruct (Nat.eqb r' r).
      * unfold after_frame. rewrite G. simpl. intro E. inversion E. lia.
      * intro E. apply H2 in E. lia.
    + rewrite frame_callbacks, G, map_app. simpl.
      apply NoDup_app; [exact H3 | repeat constructor; auto | ].
      intros a Ha [E | []]. subst a.
      apply in_map_iff in Ha. destruct Ha as [[h' r'] [E Hin]].
      simpl in E. subst h'. apply H1 in Hin. lia.
    + intros h' r1 r2. rewrite frame_callbacks, frame_runs, G.
      intro Hin. apply in_app_or in Hin.
      destruct (Nat.eqb r2 r) eqn:E2.
      * apply Nat.eqb_eq in E2. subst r2.
        unfold after_frame. rewrite G. simpl. intro E. inversion E; subst h'.
        destruct Hin as [Hin | [E' | []]].
        -- apply H1 in Hin. lia.
        -- now inversion E'.
      * intro E. destruct Hin as [Hin | [E' | []]].
        -- eapply H4; eauto.
        -- inversion E'; subst. apply H2 in E. lia.
    + intros h' r'. rewrite frame_callbacks, frame_next_run, G.
      intro Hin. apply in_app_or in Hin. destruct Hin as [Hin | [E | []]].
      * eapply H5, Hin.
      * now inversion E; subst.
    + intro r'. unfold pending. rewrite frame_callbacks, G, callbacks_of_app.
      rewrite length_app. simpl.
      destruct (Nat.eqb r r') eqn:E; simpl.
      * apply Nat.eqb_eq in E. subst r'. unfold pending in Hp. rewrite Hp.
        simpl. lia.
      * specialize (H6 r'). unfold pending in H6. lia.
    + intros e t r' Hin. rewrite frame_next_run.
      eapply H7, frame_listeners, Hin.
  - assert (Hw : WF (exec (animationCompleteHandler r undefined)
              (update_run r (log_step 1)
                 (update_run r
                    (set_nextValueIterator
                       (Some
                          match nextValueIterator (runs w r) with
                          | Some it => it
                          | None =>
                              getEasingValueIterator
                                (start_or (start (runs w r)) timestamp)
                                (run_duration (runs w r))
                                (run_easing (runs w r))
                          end))
                    (update_run r
                       (set_start
                          (Some (start_or (start (runs w r)) timestamp)))
                       w))))).
    { apply WF_handler. apply WF_transfer with (w := w); auto.
      - intro r'. simpl. destruct (Nat.eqb r' r); reflexivity.
      - apply incl_refl. }
    rewrite frame_unfold. cbv zeta. rewrite G. exact Hw.
Qed.

(** *** Runs do not touch each other *)

Lemma pending_remove_other r h w :
  WF w -> (forall c, In c (pending r w) -> fst c <> h) ->
  callbacks_of r (remove_callback h (callbacks w)) = pending r w.
Proof.
  intros _ H. rewrite callbacks_of_remove. now apply remove_callback_absent.
Qed.

Lemma handler_other r r' this w :
  WF w -> r' <> r ->
  runs (exec (animationCompleteHandler r' this) w) r = runs w r /\
  pending r (exec (animationCompleteHandler r' this) w) = pending r w.
Proof.
  intros H Hn. split.
  - rewrite handler_runs. apply Nat.eqb_neq in Hn.
    rewrite Nat.eqb_sym in Hn. now rewrite Hn.
  - unfold pending at 1. rewrite handler_callbacks.
    destruct (requestId (runs w r')) as [h|] eqn:E; auto.
    apply pending_remove_other; auto.
    intros [h' r0] Hin Eh. simpl in Eh. subst h'.
    apply In_callbacks_of in Hin. destruct Hin as [Hin Er]. simpl in Er.
    subst r0. apply Hn. eapply wf_owner; eauto.
Qed.

Lemma frame_other r r' timestamp w :
  WF w -> r' <> r ->
  runs (exec (frame r' timestamp) w) r = runs w r /\
  pending r (exec (frame r' timestamp) w) = pending r w.
Proof.
  intros H Hn. split.
  - rewrite frame_runs. apply Nat.eqb_neq in Hn.
    rewrite Nat.eqb_sym in Hn. now rewrite Hn.
  - unfold pending at 1. rewrite frame_callbacks.
    destruct (continues timestamp (runs w r')).
    + rewrite callbacks_of_app. simpl.
      apply Nat.eqb_neq in Hn. rewrite Hn. apply app_nil_r.
    + destruct (requestId (runs w r')) as [h|] eqn:E; auto.
      apply pending_remove_other; auto.
      intros [h' r0] Hin Eh. simpl in Eh. subst h'.
      apply In_callbacks_of in Hin. destruct Hin as [Hin Er]. simpl in Er.
      subst r0. apply Hn. eapply wf_owner; eauto.
Qed.

(** The run whose callback is invoked: its variables are those of
    [after_frame], and its next callback, if any, is the only one. *)
Lemma frame_own r timestamp w :
  WF w -> pending r w = [] ->
  runs (exec (frame r timestamp) w) r
  = after_frame timestamp (next_handle w) (runs w r) /\
  pending r (exec (frame r timestamp) w)
  = if continues timestamp (runs w r) then [(next_handle w, r)] else [].
Proof.
  intros H Hp. split.
  - now rewrite frame_runs, Nat.eqb_refl.
  - unfold pending at 1. rewrite frame_callbacks.
    destruct (continues timestamp (runs w r)).
    + rewrite callbacks_of_app. fold (pending r w). rewrite Hp. simpl.
      now rewrite Nat.eqb_refl.
    + destruct (requestId (runs w r)) as [h|]; auto.
      rewrite callbacks_of_remove. fold (pending r w). now rewrite Hp.
Qed.

(** *** A display refresh *)

Lemma exec_bind {A} (m : M A) (k : M unit) w :
  exec (bind m (fun _ => k)) w = exec k (exec m w).
Proof. unfold exec, bind. destruct (m w). reflexivity. Qed.

Lemma find_handle (h r : nat) (cs : list (nat * nat)) :
  NoDup (map fst cs) -> In (h, r) cs ->
  find (fun c => Nat.eqb (fst c) h) cs = Some (h, r).
Proof.
  induction cs as [|c cs IH]; simpl; intros Hd Hin; [contradiction|].
  inversion Hd as [|? ? Hn Hd']; subst.
  destruct Hin as [-> | Hin].
  - simpl. now rewrite Nat.eqb_refl.
  - destruct (Nat.eqb (fst c) h) eqn:E.
    + apply Nat.eqb_eq in E. exfalso. apply Hn. rewrite E.
      apply in_map_iff. now exists (h, r).
    + now apply IH.
Qed.

Lemma find_handle_In (h : nat) (c : nat * nat) cs :
  find (fun c => Nat.eqb (fst c) h) cs = Some c -> In c cs /\ fst c = h.
Proof.
  intro H. apply find_some in H. now rewrite Nat.eqb_eq in H.
Qed.

Lemma pending_singleton h r w :
  WF w -> In (h, r) (callbacks w) -> pending r w = [(h, r)].
Proof.
  intros H Hin.
  assert (Hp : In (h, r) (pending r w)) by now apply In_callbacks_of.
  pose proof (wf_single w H r) as Hl.
  destruct (pending r w) as [|c [|c' l]]; simpl in *; try lia; try tauto.
  destruct Hp as [-> | []]. reflexivity.
Qed.

Lemma pending_cases r w :
  WF w -> pending r w = [] \/ exists h, pending r w = [(h, r)].
Proof.
  intro H. pose proof (wf_single w H r) as Hl.
  destruct (pending r w) as [|[h r'] [|c l]] eqn:E; simpl in Hl;
    try lia; auto.
  right. exists h.
  assert (Hin : In (h, r') (pending r w)) by (rewrite E; now left).
  apply In_callbacks_of in Hin. simpl in Hin. destruct Hin as [_ ->].
  reflexivity.
Qed.

Lemma pending_after_removal h r w :
  WF w -> In (h, r) (callbacks w) ->
  pending r (set_callbacks (remove_callback h (callbacks w)) w) = [].
Proof.
  intros H Hin. unfold pending. simpl. rewrite callbacks_of_remove.
  fold (pending r w). rewrite (pending_singleton h r w H Hin).
  unfold remove_callback. simpl. now rewrite Nat.eqb_refl.
Qed.

Lemma WF_run_callback timestamp h w :
  WF w -> WF (exec (run_callback timestamp h) w).
Proof.
  intro H. unfold run_callback, exec.
  destruct (find _ (callbacks w)) as [[h' r]|] eqn:F; [|exact H].
  apply find_handle_In in F. destruct F as [Hin Eh]. simpl in Eh. subst h'.
  apply WF_frame.
  - now apply WF_remove.
  - now apply pending_after_removal.
  - simpl. eapply wf_created; eauto.
Qed.

Lemma next_handle_run_callback timestamp h w :
  (next_handle w <= next_handle (exec (run_callback timestamp h) w))%nat.
Proof.
  unfold run_callback, exec.
  destruct (find _ (callbacks w)) as [[h' r]|]; [|simpl; lia].
  fold (exec (frame r timestamp)
             (set_callbacks (remove_callback h (callbacks w)) w)).
  rewrite frame_next_handle. destruct (continues _ _); simpl; lia.
Qed.

Lemma run_callback_other r timestamp h w :
  WF w -> (forall c, In c (pending r w) -> fst c <> h) ->
  runs (exec (run_callback timestamp h) w) r = runs w r /\
  pending r (exec (run_callback timestamp h) w) = pending r w.
Proof.
  intros H Hn. unfold run_callback, exec.
  destruct (find _ (callbacks w)) as [[h' r']|] eqn:F; [|split; reflexivity].
  apply find_handle_In in F. destruct F as [Hin Eh]. simpl in Eh. subst h'.
  assert (Hr : r' <> r).
  { intros ->. apply (Hn (h, r)); auto. now apply In_callbacks_of. }
  destruct (frame_other r r' timestamp
              (set_callbacks (remove_callback h (callbacks w)) w)
              (WF_remove h w H) Hr) as [E1 E2].
  unfold exec in E1, E2. rewrite E1, E2. split; [reflexivity|].
  now apply pending_remove_other.
Qed.

Lemma run_callback_own r timestamp h w :
  WF w -> pending r w = [(h, r)] ->
  runs (exec (run_callback timestamp h) w) r
  = after_frame timestamp (next_handle w) (runs w r) /\
  pending r (exec (run_callback timestamp h) w)
  = if continues timestamp (runs w r) then [(next_handle w, r)] else [].
Proof.
  intros H Hp.
  assert (Hin : In (h, r) (callbacks w)).
  { assert (Hq : In (h, r) (pending r w)) by (rewrite Hp; now left).
    now apply In_callbacks_of in Hq. }
  unfold run_callback, exec.
  rewrite (find_handle h r (callbacks w) (wf_nodup w H) Hin).
  apply (frame_own r timestamp
           (set_callbacks (remove_callback h (callbacks w)) w)).
  - now apply WF_remove.
  - now apply pending_after_removal.
Qed.

Lemma WF_run_callbacks timestamp hs :
  forall w, WF w -> WF (exec (run_callbacks timestamp hs) w).
Proof.
  induction hs as [|h hs IH]; intros w H; [exact H|].
  simpl. rewrite exec_bind. apply IH. now apply WF_run_callback.
Qed.

Lemma run_callbacks_other r timestamp hs :
  forall w, WF w ->
            (forall h c, In h hs -> In c (pending r w) -> fst c <> h) ->
            runs (exec (run_callbacks timestamp hs) w) r = runs w r /\
            pending r (exec (run_callbacks timestamp hs) w) = pending r w.
Proof.
  induction hs as [|h hs IH]; intros w H Hn; [split; reflexivity|].
  simpl. rewrite exec_bind.
  destruct (run_callback_other r timestamp h w H) as [E1 E2].
  { intros c Hc. apply Hn; simpl; auto. }
  destruct (IH (exec (run_callback timestamp h) w)) as [E3 E4].
  - now apply WF_run_callback.
  - intros h' c Hh'. rewrite E2. apply Hn. now right.
  - rewrite E3, E4, E1, E2. split; reflexivity.
Qed.

Lemma run_callbacks_own r timestamp h hs :
  forall w, WF w -> pending r w = [(h, r)] -> In h hs -> NoDup hs ->
            (forall h', In h' hs -> (h' < next_handle w)%nat) ->
            exists n,
              runs (exec (run_callbacks timestamp hs) w) r
              = after_frame timestamp n (runs w r) /\
              pending r (exec (run_callbacks timestamp hs) w)
              = if continues timestamp (runs w r) then [(n, r)] else [].
Proof.
  induction hs as [|h0 hs IH]; intros w H Hp Hin Hd Hlt; [contradiction|].
  inversion Hd as [|? ? Hn0 Hd']; subst.
  simpl. rewrite exec_bind.
  destruct (Nat.eq_dec h0 h) as [-> | Hne].
  - destruct (run_callback_own r timestamp h w H Hp) as [E1 E2].
    destruct (run_callbacks_other r timestamp hs
                (exec (run_callback timestamp h) w)) as [E3 E4].
    + now apply WF_run_callback.
    + intros h' c Hh'. rewrite E2.
      destruct (continues timestamp (runs w r)); [|contradiction].
      intros [<- | []]. simpl.
      assert (h' < next_handle w)%nat by (apply Hlt; now right). lia.
    + exists (next_handle w). rewrite E3, E4, E1, E2. split; reflexivity.
  - destruct Hin as [E | Hin]; [congruence|].
    destruct (run_callback_other r timestamp h0 w H) as [E1 E2].
    { intros c Hc. rewrite Hp in Hc. destruct Hc as [<- | []]. simpl.
      congruence. }
    destruct (IH (exec (run_callback timestamp h0) w)) as [n [E3 E4]]; auto.
    + now apply WF_run_callback.
    + now rewrite E2.
    + intros h' Hh'.
      pose proof (next_handle_run_callback timestamp h0 w).
      assert (h' < next_handle w)%nat by (apply Hlt; now right). lia.
    + exists n. rewrite E3, E4, E1. split; reflexivity.
Qed.

Lemma exec_tick timestamp w :
  exec (tick timestamp) w
  = exec (run_callbacks timestamp (map fst (callbacks w))) w.
Proof. reflexivity. Qed.

Lemma WF_tick timestamp w : WF w -> WF (exec (tick timestamp) w).
Proof. intro H. rewrite exec_tick. now apply WF_run_callbacks. Qed.

(** A run with a pending callback is run by exactly one invocation of
    [frame], whatever other runs are pending at the same refresh. *)
Lemma tick_own r timestamp h w :
  WF w -> pending r w = [(h, r)] ->
  exists n,
    runs (exec (tick timestamp) w) r = after_frame timestamp n (runs w r) /\
    pending r (exec (tick timestamp) w)
    = if continues timestamp (runs w r) then [(n, r)] else [].
Proof.
  intros H Hp. rewrite !exec_tick.
  apply (run_callbacks_own r timestamp h (map fst (callbacks w)) w); auto.
  - assert (Hq : In (h, r) (pending r w)) by (rewrite Hp; now left).
    apply In_callbacks_of in Hq. apply in_map_iff. exists (h, r). tauto.
  - now apply wf_nodup.
  - intros h' Hh'. apply in_map_iff in Hh'.
    destruct Hh' as [[h'' r'] [E Hin]]. simpl in E. subst h''.
    eapply wf_handles; eauto.
Qed.

(** A run with no pending callback is left alone. *)
Lemma tick_idle r timestamp w :
  WF w -> pending r w = [] ->
  runs (exec (tick timestamp) w) r = runs w r /\
  pending r (exec (tick timestamp) w) = [].
Proof.
  intros H Hp. rewrite !exec_tick.
  destruct (run_callbacks_other r timestamp (map fst (callbacks w)) w H)
    as [E1 E2].
  - intros h c _ Hc. rewrite Hp in Hc. contradiction.
  - rewrite E1, E2, Hp. split; reflexivity.
Qed.

(** *** A call of [animate] *)

Lemma In_addEventListener e t r l w :
  In l (listeners (exec (addEventListener e t (handler r)) w))
  <-> In l (listeners w) \/ l = (e, t, handler r).
Proof.
  unfold addEventListener, exec.
  destruct (existsb _ (listeners w)) eqn:E; simpl.
  - apply existsb_exists in E. destruct E as [l' [Hin El]].
    apply listener_eqb_eq in El. subst l'. split; [tauto|].
    intros [H | ->]; auto.
  - rewrite in_app_iff. simpl. intuition congruence.
Qed.

Lemma addEventListener_frame e t v w :
  let w' := exec (addEventListener e t v) w in
  callbacks w' = callbacks w /\ next_handle w' = next_handle w /\
  next_run w' = next_run w /\ runs w' = runs w /\
  defaultOptions w' = defaultOptions w.
Proof.
  unfold addEventListener, exec. destruct v; simpl; auto;
    destruct (existsb _ (listeners w)); simpl; auto.
Qed.

Lemma animate_unfold u w :
  exec (animate u) w
  = let o := effective u w in
    let w1 := exec (new_run o) (set_defaultOptions o w) in
    exec (requestAnimationFrame (next_run w))
         (if cancelOnUserAction o
          then exec (addListeners (element o) (handler (next_run w))) w1
          else w1).
Proof.
  unfold animate, effective, exec, bind, assign_defaultOptions, new_run,
    when, ret. simpl.
  destruct (cancelOnUserAction (Object_assign (defaultOptions w) u)); simpl.
  - destruct (addListeners _ _ _). reflexivity.
  - reflexivity.
Qed.

Lemma animate_returns u w : fst (animate u w) = next_run w.
Proof.
  unfold animate, bind, assign_defaultOptions, new_run, when, ret. simpl.
  destruct (cancelOnUserAction (Object_assign (defaultOptions w) u)); simpl.
  - destruct (addListeners _ _ _). reflexivity.
  - reflexivity.
Qed.

Lemma addListeners_frame e v w :
  let w' := exec (addListeners e v) w in
  callbacks w' = callbacks w /\ next_handle w' = next_handle w /\
  next_run w' = next_run w /\ runs w' = runs w /\
  defaultOptions w' = defaultOptions w.
Proof.
  unfold addListeners. cbv zeta. rewrite !exec_bind.
  repeat match goal with
         | |- context [exec (addEventListener ?e ?t ?v) ?w0] =>
             let H := fresh in
             pose proof (addEventListener_frame e t v w0) as H;
             cbv zeta in H;
             destruct H as (-> & -> & -> & -> & ->)
         end.
  auto.
Qed.

Lemma In_addListeners e r l w :
  In l (listeners (exec (addListeners e (handler r)) w))
  <-> In l (listeners w) \/ exists t, l = (e, t, handler r).
Proof.
  unfold addListeners. rewrite !exec_bind, !In_addEventListener.
  split.
  - intros [[[[H | H] | H] | H] | H]; eauto.
  - intros [H | [t ->]]; auto. destruct t; auto.
Qed.

Lemma animate_registered u w :
  let o := effective u w in
  let w1 := exec (new_run o) (set_defaultOptions o w) in
  let w2 := if cancelOnUserAction o
            then exec (addListeners (element o) (handler (next_run w))) w1
            else w1 in
  callbacks w2 = callbacks w /\ next_handle w2 = next_handle w /\
  next_run w2 = S (next_run w) /\ runs w2 = runs w1 /\
  defaultOptions w2 = o.
Proof.
  cbv zeta. destruct (cancelOnUserAction (effective u w)).
  - destruct (addListeners_frame (element (effective u w))
                (handler (next_run w))
                (exec (new_run (effective u w))
                      (set_defaultOptions (effective u w) w)))
      as (-> & -> & -> & -> & ->). simpl. auto.
  - simpl. auto.
Qed.

Lemma requestAnimationFrame_fields r w :
  let w' := exec (requestAnimationFrame r) w in
  callbacks w' = callbacks w ++ [(next_handle w, r)] /\
  next_handle w' = S (next_handle w) /\ next_run w' = next_run w /\
  runs w' = runs w /\ defaultOptions w' = defaultOptions w /\
  listeners w' = listeners w.
Proof. cbv zeta. unfold requestAnimationFrame, exec. simpl. tauto. Qed.

Lemma animate_callbacks u w :
  callbacks (exec (animate u) w)
  = callbacks w ++ [(next_handle w, next_run w)].
Proof.
  rewrite animate_unfold.
  destruct (animate_registered u w) as (Ec & En & _). cbv zeta in *.
  rewrite (proj1 (requestAnimationFrame_fields _ _)). now rewrite Ec, En.
Qed.

Lemma animate_counters u w :
  next_handle (exec (animate u) w) = S (next_handle w) /\
  next_run (exec (animate u) w) = S (next_run w) /\
  defaultOptions (exec (animate u) w) = effective u w.
Proof.
  rewrite animate_unfold.
  destruct (animate_registered u w) as (_ & En & Er & _ & Ed).
  cbv zeta in *.
  match goal with
  | |- context [exec (requestAnimationFrame ?r) ?w0] =>
      destruct (requestAnimationFrame_fields r w0)
      as (_ & -> & -> & _ & -> & _)
  end.
  now rewrite En, Er, Ed.
Qed.

Lemma animate_runs u w r :
  runs (exec (animate u) w) r
  = if Nat.eqb r (next_run w) then fresh_run (effective u w) else runs w r.
Proof.
  rewrite animate_unfold.
  destruct (animate_registered u w) as (_ & _ & _ & Er & _).
  cbv zeta in *.
  match goal with
  | |- context [exec (requestAnimationFrame ?r) ?w0] =>
      destruct (requestAnimationFrame_fields r w0)
      as (_ & _ & _ & -> & _ & _)
  end.
  now rewrite Er.
Qed.

Lemma animate_listeners u w l :
  In l (listeners (exec (animate u) w))
  <-> In l (listeners w) \/
      (cancelOnUserAction (effective u w) = true /\
       exists t, l = (element (effective u w), t, handler (next_run w))).
Proof.
  rewrite animate_unfold. cbv zeta.
  match goal with
  | |- context [exec (requestAnimationFrame ?r) ?w0] =>
      destruct (requestAnimationFrame_fields r w0)
      as (_ & _ & _ & _ & _ & ->)
  end.
  destruct (cancelOnUserAction (effective u w)).
  - rewrite In_addListeners. simpl. tauto.
  - simpl. split; [tauto|]. intros [H | [H _]]; [exact H | discriminate].
Qed.

(** With [cancelOnUserAction] false the call registers nothing. *)
Lemma animate_listeners_off u w :
  cancelOnUserAction (effective u w) = false ->
  listeners (exec (animate u) w) = listeners w.
Proof.
  intro E. rewrite animate_unfold. cbv zeta. rewrite E. reflexivity.
Qed.

Lemma pending_fresh w : WF w -> pending (next_run w) w = [].
Proof.
  intro H. destruct (pending (next_run w) w) as [|[h r] l] eqn:E; auto.
  assert (Hin : In (h, r) (pending (next_run w) w)) by (rewrite E; now left).
  apply In_callbacks_of in Hin. destruct Hin as [Hin Er]. simpl in Er.
  apply (wf_created w H) in Hin. lia.
Qed.

Lemma animate_pending u w r :
  pending r (exec (animate u) w)
  = pending r w
    ++ (if Nat.eqb (next_run w) r then [(next_handle w, next_run w)] else []).
Proof.
  unfold pending. rewrite animate_callbacks, callbacks_of_app. reflexivity.
Qed.

Lemma WF_animate u w : WF w -> WF (exec (animate u) w).
Proof.
  intro H. pose proof (pending_fresh w H) as Hf.
  destruct H as [H1 H2 H3 H4 H5 H6 H7].
  destruct (animate_counters u w) as (En & Er & _).
  constructor.
  - intros h r. rewrite animate_callbacks, En. intro Hin.
    apply in_app_or in Hin. destruct Hin as [Hin | [E | []]].
    + apply H1 in Hin. lia.
    + inversion E. lia.
  - intros r h. rewrite animate_runs, En.
    destruct (Nat.eqb r (next_run w)); [discriminate|].
    intro E. apply H2 in E. lia.
  - rewrite animate_callbacks, map_app. simpl.
    apply NoDup_app; [exact H3 | repeat constructor; auto | ].
    intros a Ha [E | []]. subst a.
    apply in_map_iff in Ha. destruct Ha as [[h' r'] [E Hin]].
    simpl in E. subst h'. apply H1 in Hin. lia.
  - intros h r r'. rewrite animate_callbacks, animate_runs. intro Hin.
    destruct (Nat.eqb r' (next_run w)); [discriminate|]. intro E.
    apply in_app_or in Hin. destruct Hin as [Hin | [E' | []]].
    + eapply H4; eauto.
    + inversion E'; subst. apply H2 in E. lia.
  - intros h r. rewrite animate_callbacks, Er. intro Hin.
    apply in_app_or in Hin. destruct Hin as [Hin | [E | []]].
    + apply H5 in Hin. lia.
    + inversion E. lia.
  - intro r. rewrite animate_pending, length_app.
    destruct (Nat.eqb (next_run w) r) eqn:E; simpl.
    + apply Nat.eqb_eq in E. subst r. rewrite Hf. simpl. lia.
    + specialize (H6 r). lia.
  - intros e t r. rewrite animate_listeners, Er.
    intros [Hin | [_ [t' E]]].
    + apply H7 in Hin. lia.
    + inversion E. lia.
Qed.

(** *** Delivery of an event *)

Lemma invoke_unfold l w :
  exec (invoke l) w
  = if existsb (listener_eqb l) (listeners w) then
      match l with
      | (target, _, handler r) =>
          exec (animationCompleteHandler r (object target)) w
      | _ => w
      end
    else w.
Proof.
  unfold invoke, exec. destruct (existsb _ _); [|reflexivity].
  destruct l as [[e t] [| |r]]; reflexivity.
Qed.

Lemma WF_invoke l w : WF w -> WF (exec (invoke l) w).
Proof.
  intro H. rewrite invoke_unfold. destruct (existsb _ _); [|exact H].
  destruct l as [[e t] [| |r]]; auto using WF_handler.
Qed.

Lemma invoke_listeners l w :
  incl (listeners (exec (invoke l) w)) (listeners w).
Proof.
  rewrite invoke_unfold. destruct (existsb _ _); [|apply incl_refl].
  destruct l as [[e t] [| |r]];
    auto using incl_refl, handler_listeners_incl.
Qed.

Lemma invoke_other r l w :
  WF w -> unregistered r w ->
  runs (exec (invoke l) w) r = runs w r /\
  pending r (exec (invoke l) w) = pending r w.
Proof.
  intros H Hu. rewrite invoke_unfold.
  destruct (existsb _ _) eqn:E; [|split; reflexivity].
  destruct l as [[e t] [| |r']]; try (split; reflexivity).
  apply existsb_exists in E. destruct E as [l' [Hin El]].
  apply listener_eqb_eq in El. subst l'.
  apply handler_other; auto. intros ->. exact (Hu e t Hin).
Qed.

Lemma WF_invoke_all ls : forall w, WF w -> WF (exec (invoke_all ls) w).
Proof.
  induction ls as [|l ls IH]; intros w H; [exact H|].
  simpl. rewrite exec_bind. apply IH. now apply WF_invoke.
Qed.

Lemma invoke_all_listeners ls :
  forall w, incl (listeners (exec (invoke_all ls) w)) (listeners w).
Proof.
  induction ls as [|l ls IH]; intro w; [apply incl_refl|].
  simpl. rewrite exec_bind.
  eapply incl_tran; [apply IH | apply invoke_listeners].
Qed.

Lemma invoke_all_other r ls :
  forall w, WF w -> unregistered r w ->
            runs (exec (invoke_all ls) w) r = runs w r /\
            pending r (exec (invoke_all ls) w) = pending r w.
Proof.
  induction ls as [|l ls IH]; intros w H Hu; [split; reflexivity|].
  simpl. rewrite exec_bind.
  destruct (invoke_other r l w H Hu) as [E1 E2].
  destruct (IH (exec (invoke l) w)) as [E3 E4].
  - now apply WF_invoke.
  - intros e t Hin. apply (Hu e t). eapply invoke_listeners, Hin.
  - rewrite E3, E4, E1, E2. split; reflexivity.
Qed.

Lemma exec_dispatchEvent target type w :
  exec (dispatchEvent target type) w
  = exec (invoke_all
            (filter (fun l => element_eqb (fst (fst l)) target
                              && type_eqb (snd (fst l)) type)
                    (listeners w))) w.
Proof. reflexivity. Qed.

Lemma WF_dispatchEvent target type w :
  WF w -> WF (exec (dispatchEvent target type) w).
Proof. intro H. rewrite exec_dispatchEvent. now apply WF_invoke_all. Qed.

Lemma dispatchEvent_listeners target type w :
  incl (listeners (exec (dispatchEvent target type) w)) (listeners w).
Proof. rewrite exec_dispatchEvent. apply invoke_all_listeners. Qed.

(** An event does nothing to a run that has no handler registered. *)
Lemma dispatchEvent_other r target type w :
  WF w -> unregistered r w ->
  runs (exec (dispatchEvent target type) w) r = runs w r /\
  pending r (exec (dispatchEvent target type) w) = pending r w.
Proof.
  intros H Hu. rewrite !exec_dispatchEvent. now apply invoke_all_other.
Qed.

(** *** Histories *)

Lemma WF_happen e w : WF w -> WF (happen e w).
Proof.
  destruct e; simpl; auto using WF_animate, WF_tick, WF_dispatchEvent.
Qed.

Lemma WF_play es : forall w, WF w -> WF (play es w).
Proof.
  induction es as [|e es IH]; intros w H; [exact H|].
  simpl. apply IH. now apply WF_happen.
Qed.

Lemma play_app es es' w : play (es ++ es') w = play es' (play es w).
Proof. unfold play. apply fold_left_app. Qed.

Lemma run_callback_keeps timestamp h w :
  next_run (exec (run_callback timestamp h) w) = next_run w /\
  incl (listeners (exec (run_callback timestamp h) w)) (listeners w).
Proof.
  unfold run_callback, exec.
  destruct (find _ (callbacks w)) as [[h' r]|];
    [|split; [reflexivity | apply incl_refl]].
  fold (exec (frame r timestamp)
             (set_callbacks (remove_callback h (callbacks w)) w)).
  split.
  - now rewrite frame_next_run.
  - exact (frame_listeners r timestamp
             (set_callbacks (remove_callback h (callbacks w)) w)).
Qed.

Lemma run_callbacks_keeps timestamp hs :
  forall w,
    next_run (exec (run_callbacks timestamp hs) w) = next_run w /\
    incl (listeners (exec (run_callbacks timestamp hs) w)) (listeners w).
Proof.
  induction hs as [|h hs IH]; intro w; [split; [reflexivity|apply incl_refl]|].
  simpl. rewrite exec_bind.
  destruct (IH (exec (run_callback timestamp h) w)) as [E1 E2].
  destruct (run_callback_keeps timestamp h w) as [E3 E4].
  split; [congruence | eapply incl_tran; eauto].
Qed.

Lemma tick_keeps timestamp w :
  next_run (exec (tick timestamp) w) = next_run w /\
  incl (listeners (exec (tick timestamp) w)) (listeners w).
Proof. rewrite !exec_tick. apply run_callbacks_keeps. Qed.

Lemma invoke_all_next_run ls :
  forall w, next_run (exec (invoke_all ls) w) = next_run w.
Proof.
  induction ls as [|l ls IH]; intro w; [reflexivity|].
  simpl. rewrite exec_bind, IH, invoke_unfold.
  destruct (existsb _ _); [|reflexivity].
  destruct l as [[e t] [| |r]]; try reflexivity.
  apply handler_counters.
Qed.

Lemma dispatchEvent_next_run target type w :
  next_run (exec (dispatchEvent target type) w) = next_run w.
Proof. rewrite exec_dispatchEvent. apply invoke_all_next_run. Qed.

Lemma WF_reachable history : WF (play history initial_world).
Proof. apply WF_play, WF_initial. Qed.

Lemma continues_false timestamp x :
  run_duration x <= timestamp - start_or (start x) timestamp ->
  continues timestamp x = false.
Proof. intro H. unfold continues, shouldContinue. now apply Qlt_bool_false_iff. Qed.

Lemma continues_true timestamp x :
  timestamp - start_or (start x) timestamp < run_duration x ->
  continues timestamp x = true.
Proof. intro H. unfold continues, shouldContinue. now apply Qlt_bool_iff. Qed.

(** The tick a run has been waiting for, when it comes at or after the
    deadline of the run. *)
Lemma tick_at_deadline r timestamp h w :
  WF w -> pending r w = [(h, r)] ->
  run_duration (runs w r)
  <= timestamp - start_or (start (runs w r)) timestamp ->
  step_calls (runs (exec (tick timestamp) w) r)
  = step_calls (runs w r) ++ [1] /\
  resolve_calls (runs (exec (tick timestamp) w) r)
  = S (resolve_calls (runs w r)) /\
  pending r (exec (tick timestamp) w) = [].
Proof.
  intros H Hp Hd. apply continues_false in Hd.
  destruct (tick_own r timestamp h w H Hp) as [n [E1 E2]].
  rewrite E1, E2. unfold after_frame. rewrite Hd. simpl. auto.
Qed.

(** Right after the call: the run is new and waits for its first
    tick. *)
Lemma animate_starts history u :
  let w := play history initial_world in
  let w1 := exec (animate u) w in
  WF w1 /\ runs w1 (next_run w) = fresh_run (effective u w) /\
  pending (next_run w) w1 = [(next_handle w, next_run w)] /\
  (next_run w < next_run w1)%nat.
Proof.
  cbv zeta. pose proof (WF_reachable history) as H.
  split; [now apply WF_animate|]. split; [|split].
  - now rewrite animate_runs, Nat.eqb_refl.
  - rewrite animate_pending, Nat.eqb_refl, pending_fresh; auto.
  - rewrite (proj1 (proj2 (animate_counters _ _))). lia.
Qed.

(** *** What a run keeps *)

(** A property of the variables of a run that [frame] and [resolve] keep
    is kept by every history. *)
Lemma invoke_all_kept {A} (P : Run -> A) (v : A) r ls :
  (forall x, P x = v -> P (log_resolve x) = v) ->
  forall w, P (runs w r) = v -> P (runs (exec (invoke_all ls) w) r) = v.
Proof.
  intro Hres. induction ls as [|l ls IH]; intros w Hv; [exact Hv|].
  simpl. rewrite exec_bind. apply IH. rewrite invoke_unfold.
  destruct (existsb _ _); [|exact Hv].
  destruct l as [[e t] [| |r']]; try exact Hv.
  rewrite handler_runs. destruct (Nat.eqb r r') eqn:E; [|exact Hv].
  apply Nat.eqb_eq in E. subst r'. now apply Hres.
Qed.

Lemma tick_kept {A} (P : Run -> A) (v : A) r timestamp w :
  (forall ts n x, P x = v -> P (after_frame ts n x) = v) ->
  WF w -> P (runs w r) = v -> P (runs (exec (tick timestamp) w) r) = v.
Proof.
  intros Hfr H Hv. destruct (pending_cases r w H) as [Hp | [h Hp]].
  - now rewrite (proj1 (tick_idle r timestamp w H Hp)).
  - destruct (tick_own r timestamp h w H Hp) as [n [E _]]. rewrite E.
    now apply Hfr.
Qed.

Lemma kept_play {A} (P : Run -> A) (v : A) r es :
  (forall ts n x, P x = v -> P (after_frame ts n x) = v) ->
  (forall x, P x = v -> P (log_resolve x) = v) ->
  forall w, WF w -> (r < next_run w)%nat -> P (runs w r) = v ->
            P (runs (play es w) r) = v.
Proof.
  intros Hfr Hres.
  induction es as [|e es IH]; intros w H Hr Hv; [exact Hv|].
  simpl. apply IH.
  - now apply WF_happen.
  - destruct e as [u | ts | target type]; simpl.
    + rewrite (proj1 (proj2 (animate_counters u w))). lia.
    + now rewrite (proj1 (tick_keeps ts w)).
    + now rewrite dispatchEvent_next_run.
  - destruct e as [u | ts | target type]; simpl.
    + rewrite animate_runs.
      assert (En : Nat.eqb r (next_run w) = false)
        by (apply Nat.eqb_neq; lia).
      now rewrite En.
    + now apply tick_kept.
    + rewrite exec_dispatchEvent. now apply invoke_all_kept.
Qed.

(** After its first tick, at [ts0], a run keeps its duration and the
    iterator made at that tick, which remembers [ts0]; and it keeps [ts0]
    as its recorded start if [ts0] is not 0. *)
Lemma after_first_tick
      (history : list Event) (u : option PartialOptions) (ts0 : Q)
      (later : list Event) :
  let w := play history initial_world in
  let o := effective u w in
  let w2 := play (Tick ts0 :: later) (exec (animate u) w) in
  WF w2 /\
  run_duration (runs w2 (next_run w)) = duration o /\
  nextValueIterator (runs w2 (next_run w))
  = Some (getEasingValueIterator ts0 (duration o) (easing o)) /\
  (~ ts0 == 0 -> start (runs w2 (next_run w)) = Some ts0).
Proof.
  cbv zeta.
  destruct (animate_starts history u) as (H1 & Ex & Ep & Hr).
  cbv zeta in *.
  set (w := play history initial_world) in *.
  set (w1 := exec (animate u) w) in *.
  change (play (Tick ts0 :: later) w1)
    with (play later (exec (tick ts0) w1)).
  assert (H2 : WF (exec (tick ts0) w1)) by now apply WF_tick.
  assert (Hr2 : (next_run w < next_run (exec (tick ts0) w1))%nat)
    by now rewrite (proj1 (tick_keeps _ _)).
  destruct (tick_own _ ts0 _ _ H1 Ep) as [n [E _]].
  split; [now apply WF_play|]. split; [|split].
  - apply kept_play; [ | | exact H2 | exact Hr2 | ].
    + intros ts m x Hx. unfold after_frame.
      destruct (continues ts x); exact Hx.
    + intros x Hx. exact Hx.
    + rewrite E, Ex. unfold after_frame. destruct (continues _ _); reflexivity.
  - apply kept_play; [ | | exact H2 | exact Hr2 | ].
    + intros ts m x Hx. unfold after_frame. rewrite Hx.
      destruct (continues ts x); reflexivity.
    + intros x Hx. exact Hx.
    + rewrite E, Ex. unfold after_frame. destruct (continues _ _); reflexivity.
  - intro Hnz. apply truthy_true_iff in Hnz.
    apply kept_play; [ | | exact H2 | exact Hr2 | ].
    + intros ts m x Hx. unfold after_frame. rewrite Hx. simpl. rewrite Hnz.
      destruct (continues ts x); reflexivity.
    + intros x Hx. exact Hx.
    + rewrite E, Ex. unfold after_frame. destruct (continues _ _); reflexivity.
Qed.

(** A run whose duration is not positive ends on its first tick, whatever
    the timestamp of the tick is: the elapsed time [ts0 - ts0] is not
    less than the duration. *)
Lemma first_tick_settles
      (history : list Event) (u : option PartialOptions) (ts0 : Q) :
  let w := play history initial_world in
  let r := next_run w in
  let w3 := exec (tick ts0) (exec (animate u) w) in
  duration (effective u w) <= 0 ->
  step_calls (runs w3 r) = [1] /\
  resolve_calls (runs w3 r) = 1%nat /\
  pending r w3 = [].
Proof.
  cbv zeta. intro Hd.
  destruct (animate_starts history u) as (H1 & Ex & Ep & _).
  cbv zeta in *.
  destruct (tick_at_deadline (next_run (play history initial_world))
              ts0 _ _ H1 Ep) as (E1 & E2 & E3).
  - rewrite Ex. simpl. lra.
  - rewrite E1, E2, E3, Ex. simpl. auto.
Qed.

(** *** Ticks before the deadline *)

Lemma start_or_bounds (s0 : option Q) (ts0 ts : Q) :
  (forall s, s0 = Some s -> ts0 <= s) -> ts0 <= ts ->
  ts0 <= start_or s0 ts.
Proof.
  intros Hs Ht. unfold start_or. destruct s0 as [s|]; auto.
  destruct (truthy s); auto.
Qed.




(** *** Runs without listeners *)

Lemma quiet_happen r e w : quiet r w -> quiet r (happen e w).
Proof.
  intros (H & Hr & Hu & Hs).
  split; [now apply WF_happen|]. destruct e as [u | ts | target type]; simpl.
  - (* another call *)
    assert (En : Nat.eqb r (next_run w) = false) by (apply Nat.eqb_neq; lia).
    assert (En' : Nat.eqb (next_run w) r = false)
      by (apply Nat.eqb_neq; lia).
    split; [rewrite (proj1 (proj2 (animate_counters u w))); lia|].
    split.
    + intros e t Hin. apply animate_listeners in Hin.
      destruct Hin as [Hin | [_ [t' E]]]; [exact (Hu e t Hin)|].
      inversion E. lia.
    + unfold waiting, done.
      rewrite animate_runs, En, animate_pending, En', app_nil_r. exact Hs.
  - (* a display refresh *)
    destruct (tick_keeps ts w) as [Er Hl].
    split; [rewrite Er; exact Hr|].
    split; [intros e t Hin; exact (Hu e t (Hl _ Hin))|].
    destruct Hs as [[Hz [h Hp]] | (Hz & Hp & Hc)].
    + destruct (tick_own r ts h w H Hp) as [n [E1 E2]].
      unfold waiting, done. rewrite E1, E2. unfold after_frame.
      destruct (continues ts (runs w r)); simpl.
      * left. eauto.
      * right. rewrite Hz. eauto.
    + destruct (tick_idle r ts w H Hp) as [E1 E2].
      right. unfold done. rewrite E1, E2. auto.
  - (* a signal *)
    split; [rewrite dispatchEvent_next_run; exact Hr|].
    split;
      [intros e t Hin;
       exact (Hu e t (dispatchEvent_listeners target type w _ Hin))|].
    destruct (dispatchEvent_other r target type w H Hu) as [E1 E2].
    unfold waiting, done. rewrite E1, E2. exact Hs.
Qed.

Lemma quiet_play r es : forall w, quiet r w -> quiet r (play es w).
Proof.
  induction es as [|e es IH]; intros w H; [exact H|].
  simpl. apply IH. now apply quiet_happen.
Qed.

Lemma quiet_animate history u :
  let w := play history initial_world in
  cancelOnUserAction (effective u w) = false ->
  quiet (next_run w) (exec (animate u) w).
Proof.
  cbv zeta. intro Hc.
  destruct (animate_starts history u) as (H1 & Ex & Ep & Hr).
  cbv zeta in *. split; [exact H1|]. split; [exact Hr|]. split.
  - intros e t Hin. rewrite (animate_listeners_off _ _ Hc) in Hin.
    apply (wf_listeners _ (WF_reachable history)) in Hin. lia.
  - left. split; [now rewrite Ex | eauto].
Qed.

Lemma after_frame_same_run timestamp n n' x x' :
  same_run x x' ->
  same_run (after_frame timestamp n x) (after_frame timestamp n' x') /\
  continues timestamp x = continues timestamp x'.
Proof.
  unfold same_run. destruct x, x'. simpl. intro E. inversion E; subst.
  unfold after_frame, continues. simpl.
  destruct (shouldContinue _ _ _); split; reflexivity.
Qed.

(** The signals of a history can be left out without a change to a run
    that has no handler registered. *)
Lemma signals_do_not_matter r es :
  forall w w',
    quiet r w -> quiet r w' -> same_run (runs w r) (runs w' r) ->
    (pending r w = [] <-> pending r w' = []) ->
    same_run (runs (play es w) r) (runs (play (without_signals es) w') r) /\
    (pending r (play es w) = [] <->
     pending r (play (without_signals es) w') = []).
Proof.
  induction es as [|e es IH]; intros w w' Hq Hq' Hs Hp; [split; assumption|].
  pose proof Hq as (H & Hr & Hu & _). pose proof Hq' as (H' & Hr' & _ & _).
  destruct e as [u | ts | target type]; simpl.
  - (* the same call on both sides *)
    apply IH; try (now apply (quiet_happen r (Call u))).
    + simpl. rewrite !animate_runs.
      assert (En : Nat.eqb r (next_run w) = false) by (apply Nat.eqb_neq; lia).
      assert (En' : Nat.eqb r (next_run w') = false)
        by (apply Nat.eqb_neq; lia).
      now rewrite En, En'.
    + simpl. rewrite !animate_pending.
      assert (En : Nat.eqb (next_run w) r = false) by (apply Nat.eqb_neq; lia).
      assert (En' : Nat.eqb (next_run w') r = false)
        by (apply Nat.eqb_neq; lia).
      now rewrite En, En', !app_nil_r.
  - (* the same display refresh on both sides *)
    apply IH; try (now apply (quiet_happen r (Tick ts))); simpl.
    + destruct (pending_cases r w H) as [E | [h E]];
        destruct (pending_cases r w' H') as [E' | [h' E']].
      * rewrite (proj1 (tick_idle r ts w H E)).
        now rewrite (proj1 (tick_idle r ts w' H' E')).
      * apply Hp in E. rewrite E in E'. discriminate.
      * apply Hp in E'. rewrite E' in E. discriminate.
      * destruct (tick_own r ts h w H E) as [n [E1 _]].
        destruct (tick_own r ts h' w' H' E') as [n' [E1' _]].
        rewrite E1, E1'. now apply after_frame_same_run.
    + destruct (pending_cases r w H) as [E | [h E]];
        destruct (pending_cases r w' H') as [E' | [h' E']].
      * rewrite (proj2 (tick_idle r ts w H E)).
        rewrite (proj2 (tick_idle r ts w' H' E')). tauto.
      * apply Hp in E. rewrite E in E'. discriminate.
      * apply Hp in E'. rewrite E' in E. discriminate.
      * destruct (tick_own r ts h w H E) as [n [_ E2]].
        destruct (tick_own r ts h' w' H' E') as [n' [_ E2']].
        rewrite E2, E2'.
        rewrite (proj2 (after_frame_same_run ts n n' _ _ Hs)).
        destruct (continues ts (runs w' r)); split; intro; auto;
          discriminate.
  - (* a signal, on the left side only *)
    destruct (dispatchEvent_other r target type w H Hu) as [E1 E2].
    apply IH; auto.
    + now apply (quiet_happen r (Signal target type)).
    + simpl. now rewrite E1.
    + simpl. now rewrite E2.
Qed.

(** Ticks of a run that has had its first tick, at [ts0], each coming
    before the deadline counted from [s], the first timestamp other than
    0: the run goes on waiting and ends up with [s] as its recorded
    start. *)
Lemma ticks_record_start r o ts0 s tss :
  forall w,
    WF w -> (exists h, pending r w = [(h, r)]) ->
    run_duration (runs w r) = duration o ->
    nextValueIterator (runs w r)
    = Some (getEasingValueIterator ts0 (duration o) (easing o)) ->
    0 < duration o -> truthy s = true ->
    (exists x, start (runs w r) = Some x /\
               ((truthy x = true /\ x = s) \/
                (truthy x = false /\ find truthy tss = Some s))) ->
    (forall t, In t tss -> t - s < duration o) ->
    let w' := play (map Tick tss) w in
    WF w' /\ (exists h, pending r w' = [(h, r)]) /\
    run_duration (runs w' r) = duration o /\
    start (runs w' r) = Some s /\
    resolve_calls (runs w' r) = resolve_calls (runs w r) /\
    step_calls (runs w' r) = step_calls (runs w r) ++ map (eased o ts0) tss.
Proof.
  induction tss as [|t tss IH]; intros w H [h Hp] Ed Ei Hd Hs Hx Hts.
  - cbv zeta. simpl. rewrite app_nil_r.
    destruct Hx as [x [Ex [[_ ->] | [_ F]]]]; [|discriminate].
    eauto 10.
  - destruct Hx as [x [Ex Hx]].
    assert (Hst : (start_or (start (runs w r)) t = s /\
                   ((truthy s = true /\ s = s) \/
                    (truthy s = false /\ find truthy tss = Some s))) \/
                  (start_or (start (runs w r)) t = t /\ truthy t = false /\
                   find truthy tss = Some s)).
    { rewrite Ex. simpl. destruct Hx as [[Tx ->] | [Tx F]].
      - rewrite Hs. left. auto.
      - rewrite Tx. simpl in F. destruct (truthy t) eqn:Tt.
        + inversion F; subst. left. auto.
        + right. auto. }
    assert (G : continues t (runs w r) = true).
    { apply continues_true. rewrite Ed.
      destruct Hst as [[-> _] | [-> _]].
      - apply Hts. now left.
      - lra. }
    destruct (tick_own r t h w H Hp) as [n [E1 E2]].
    rewrite G in E2. cbv zeta.
    change (play (map Tick (t :: tss)) w)
      with (play (map Tick tss) (exec (tick t) w)).
    destruct (IH (exec (tick t) w)) as (A & B & C & D & R & S); auto.
    + now apply WF_tick.
    + exists n. exact E2.
    + rewrite E1. unfold after_frame. now rewrite G.
    + rewrite E1. unfold after_frame. now rewrite G, Ei.
    + rewrite E1. unfold after_frame. rewrite G. simpl.
      destruct Hst as [[-> Hc] | (-> & Tt & F)]; eauto.
    + intros t' Hin. apply Hts. now right.
    + cbv zeta in *. split; [exact A|]. split; [exact B|].
      split; [exact C|]. split; [exact D|].
      rewrite R, S, E1. unfold after_frame. rewrite G, Ei. simpl.
      rewrite <- app_assoc. auto.
Qed.

(** A run that receives nothing but ticks, up to the first one at or
    after its deadline.  The deadline is counted from [s], the first
    timestamp among those of the ticks that is not 0. *)
Lemma ticks_settle
      (history : list Event) (u : option PartialOptions)
      (ts0 : Q) (tss : list Q) (last s : Q) :
  let w := play history initial_world in
  let r := next_run w in
  let o := effective u w in
  let w3 := play (map Tick (ts0 :: tss ++ [last])) (exec (animate u) w) in
  0 < duration o ->
  find truthy (ts0 :: tss) = Some s ->
  (forall t, In t (ts0 :: tss) -> t - s < duration o) ->
  duration o <= last - s ->
  step_calls (runs w3 r) = map (eased o ts0) (ts0 :: tss) ++ [1] /\
  resolve_calls (runs w3 r) = 1%nat /\
  pending r w3 = [].
Proof.
  cbv zeta. intros Hd Hf Hts Hlast.
  destruct (animate_starts history u) as (H1 & Ex & Ep & _).
  cbv zeta in *.
  set (w := play history initial_world) in *.
  set (w1 := exec (animate u) w) in *.
  assert (Hs : truthy s = true) by (apply find_some in Hf; tauto).
  assert (G : continues ts0 (runs w1 (next_run w)) = true).
  { apply continues_true. rewrite Ex. simpl. lra. }
  destruct (tick_own _ ts0 _ w1 H1 Ep) as [n [E1 E2]].
  rewrite G in E2.
  assert (Ew : play (map Tick (ts0 :: tss ++ [last])) w1
               = exec (tick last)
                      (play (map Tick tss) (exec (tick ts0) w1))).
  { change (ts0 :: tss ++ [last]) with ((ts0 :: tss) ++ [last]).
    rewrite map_app, play_app. reflexivity. }
  rewrite Ew.
  destruct (ticks_record_start (next_run w) (effective u w) ts0 s tss
              (exec (tick ts0) w1)) as (A & [h B] & C & D & R & S); auto.
  - now apply WF_tick.
  - exists n. exact E2.
  - rewrite E1. unfold after_frame. rewrite G, Ex. reflexivity.
  - rewrite E1. unfold after_frame. rewrite G, Ex. reflexivity.
  - rewrite E1. unfold after_frame. rewrite G, Ex. simpl.
    exists ts0. split; [reflexivity|].
    simpl in Hf. destruct (truthy ts0) eqn:T0.
    + inversion Hf; subst. left. auto.
    + right. auto.
  - intros t Hin. apply Hts. now right.
  - cbv zeta in *.
    destruct (tick_at_deadline _ last h _ A B) as (F1 & F2 & F3).
    + rewrite C, D. simpl. now rewrite Hs.
    + rewrite F1, F2, F3, R, S, E1. unfold after_frame. rewrite G, Ex.
      simpl. auto.
Qed.

(** C6.  A call whose effective [cancelOnUserAction] is false registers
    no listener.  At every later moment no handler of the run is
    registered on any target, an event of any of the four types on any
    target leaves the variables of the run and its pending tick as they
    are, and the run is either waiting for a tick or done by a last
    [step(1)] followed by one [resolve]; the invocations of [step] and
    of [resolve] are those of the same history with its signals left
    out.  The run settles by its ticks alone, wherever signals come in
    between: with the ticks at [ts0], then at [tss], each before the
    deadline, and then at [last], at or after it, [step] has received the
    eased values of the first ticks and then 1, [resolve] has been
    invoked exactly once and no tick is pending.  The deadline is counted
    from [s], the first of the timestamps that is not 0: the timestamp
    of the first tick unless that is 0.  With a duration that is not
    positive the first tick settles the run. *)
Theorem C6_no_listeners_no_cancellation
        (history : list Event) (u : option PartialOptions)
        (later : list Event) :
  let w := play history initial_world in
  let r := next_run w in
  let o := effective u w in
  let w1 := exec (animate u) w in
  let w2 := play later w1 in
  cancelOnUserAction o = false ->
  listeners w1 = listeners w /\
  (forall e t, ~ In (e, t, handler r) (listeners w2)) /\
  (forall target type,
      runs (exec (dispatchEvent target type) w2) r = runs w2 r /\
      pending r (exec (dispatchEvent target type) w2) = pending r w2) /\
  (waiting r w2 \/ done r w2) /\
  (forall timestamp,
      waiting r w2 ->
      run_duration (runs w2 r)
      <= timestamp - start_or (start (runs w2 r)) timestamp ->
      let w3 := exec (tick timestamp) w2 in
      step_calls (runs w3 r) = step_calls (runs w2 r) ++ [1] /\
      resolve_calls (runs w3 r) = 1%nat /\
      pending r w3 = []) /\
  (let w2' := play (without_signals later) w1 in
   step_calls (runs w2 r) = step_calls (runs w2' r) /\
   resolve_calls (runs w2 r) = resolve_calls (runs w2' r)) /\
  (forall (ts0 : Q) (tss : list Q) (last s : Q),
      without_signals later = map Tick (ts0 :: tss ++ [last]) ->
      0 < duration o ->
      find truthy (ts0 :: tss) = Some s ->
      (forall t, In t (ts0 :: tss) -> t - s < duration o) ->
      duration o <= last - s ->
      step_calls (runs w2 r) = map (eased o ts0) (ts0 :: tss) ++ [1] /\
      resolve_calls (runs w2 r) = 1%nat /\
      pending r w2 = []) /\
  (forall ts0 : Q,
      without_signals later = [Tick ts0] ->
      duration o <= 0 ->
      step_calls (runs w2 r) = [1] /\
      resolve_calls (runs w2 r) = 1%nat /\
      pending r w2 = []).
Proof.
  cbv zeta. intro Hc.
  pose proof (quiet_animate history u Hc) as Hq.
  pose proof (quiet_play _ later _ Hq) as (H & Hr & Hu & Hs).
  destruct (signals_do_not_matter _ later _ _ Hq Hq eq_refl
                                  (iff_refl _)) as [E Ep].
  unfold same_run in E.
  assert (Es : step_calls
                 (runs (play later (exec (animate u)
                                         (play history initial_world)))
                       (next_run (play history initial_world)))
               = step_calls
                   (runs (play (without_signals later)
                               (exec (animate u)
                                     (play history initial_world)))
                         (next_run (play history initial_world))))
    by exact (f_equal step_calls E).
  assert (Er : resolve_calls
                 (runs (play later (exec (animate u)
                                         (play history initial_world)))
                       (next_run (play history initial_world)))
               = resolve_calls
                   (runs (play (without_signals later)
                               (exec (animate u)
                                     (play history initial_world)))
                         (next_run (play history initial_world))))
    by exact (f_equal resolve_calls E).
  split; [now apply animate_listeners_off|].
  split; [exact Hu|].
  split; [intros target type; now apply dispatchEvent_other|].
  split; [exact Hs|].
  split; [|split; [|split]].
  - intros timestamp [Hz [h Hp]] Hd.
    destruct (tick_at_deadline _ timestamp h _ H Hp Hd) as (E1 & E2 & E3).
    rewrite E1, E2, E3, Hz. auto.
  - split; [exact Es | exact Er].
  - intros ts0 tss last s El Hd Hf Hts Hlast.
    rewrite El in Es, Er, Ep.
    destruct (ticks_settle history u ts0 tss last s Hd Hf Hts Hlast)
      as (F1 & F2 & F3).
    cbv zeta in *. rewrite Es, Er.
    split; [exact F1|]. split; [exact F2|]. apply Ep. exact F3.
  - intros ts0 El Hd.
    rewrite El in Es, Er, Ep.
    destruct (first_tick_settles history u ts0 Hd) as (F1 & F2 & F3).
    cbv zeta in *. rewrite Es, Er.
    split; [exact F1|]. split; [exact F2|]. apply Ep. exact F3.
Qed.

Lemma C6_no_listeners_no_cancellation_witness :
  let u := Some (mkPartial (Some false) None None (Some 300)) in
  let v := Some (mkPartial (Some false) None None (Some 0)) in
  let w1 := exec (animate u) initial_world in
  let later := [Signal window wheel; Tick 16; Signal window mousedown;
                Tick 116; Signal window keydown; Tick 316;
                Signal window touchstart] in
  cancelOnUserAction (effective u initial_world) = false /\
  listeners w1 = [] /\
  runs (exec (dispatchEvent window wheel) (play later w1)) 0%nat
  = runs (play later w1) 0%nat /\
  without_signals later = map Tick (16 :: [116] ++ [316]) /\
  0 < duration (effective u initial_world) /\
  find truthy [16; 116] = Some 16 /\
  (forall t, In t [16; 116] -> t - 16 < duration (effective u initial_world)) /\
  duration (effective u initial_world) <= 316 - 16 /\
  step_calls (runs (play later w1) 0%nat)
  = map (eased (effective u initial_world) 16) [16; 116] ++ [1] /\
  resolve_calls (runs (play later w1) 0%nat) = 1%nat /\
  pending 0%nat (play later w1) = [] /\
  cancelOnUserAction (effective v initial_world) = false /\
  without_signals [Signal window wheel; Tick 16] = [Tick 16] /\
  duration (effective v initial_world) <= 0 /\
  step_calls (runs (play [Signal window wheel; Tick 16]
                         (exec (animate v) initial_world)) 0%nat) = [1].
Proof.
  cbv zeta.
  set (u := Some (mkPartial (Some false) None None (Some 300))).
  set (v := Some (mkPartial (Some false) None None (Some 0))).
  set (later := [Signal window wheel; Tick 16; Signal window mousedown;
                 Tick 116; Signal window keydown; Tick 316;
                 Signal window touchstart]).
  assert (Hc : cancelOnUserAction (effective u initial_world) = false)
    by reflexivity.
  assert (El : without_signals later = map Tick (16 :: [116] ++ [316]))
    by reflexivity.
  assert (Hd : 0 < duration (effective u initial_world))
    by (vm_compute; reflexivity).
  assert (Hf : find truthy [16; 116] = Some 16) by reflexivity.
  assert (Hts : forall t, In t [16; 116] ->
                          t - 16 < duration (effective u initial_world)).
  { intros t [<- | [<- | []]]; vm_compute; reflexivity. }
  assert (Hl : duration (effective u initial_world) <= 316 - 16)
    by (vm_compute; discriminate).
  assert (Hc' : cancelOnUserAction (effective v initial_world) = false)
    by reflexivity.
  assert (El' : without_signals [Signal window wheel; Tick 16] = [Tick 16])
    by reflexivity.
  assert (Hd' : duration (effective v initial_world) <= 0)
    by (vm_compute; discriminate).
  pose proof (C6_no_listeners_no_cancellation [] u later Hc)
    as (E1 & _ & E2 & _ & _ & _ & E3 & _).
  pose proof (C6_no_listeners_no_cancellation
                [] v [Signal window wheel; Tick 16] Hc')
    as (_ & _ & _ & _ & _ & _ & _ & E4).
  destruct (E3 16 [116] 316 16 El Hd Hf Hts Hl) as (F1 & F2 & F3).
  split; [exact Hc|]. split; [exact E1|].
  split; [exact (proj1 (E2 window wheel))|].
  split; [exact El|]. split; [exact Hd|]. split; [exact Hf|].
  split; [exact Hts|]. split; [exact Hl|].
  split; [exact F1|]. split; [exact F2|]. split; [exact F3|].
  split; [exact Hc'|]. split; [exact El'|]. split; [exact Hd'|].
  exact (proj1 (E4 16 El' Hd')).
Defined.

(** *** Listeners stay *)

Lemma remove_listener_foreign e t v ls :
  (forall e' t' v', In (e', t', v') ls -> exists r, v' = handler r) ->
  (forall r, v <> handler r) ->
  remove_listener (e, t, v) ls = ls.
Proof.
  intros Hh Hv. unfold remove_listener.
  induction ls as [|[[e' t'] v'] ls IH]; [reflexivity|].
  simpl.
  destruct (element_eqb e e' && type_eqb t t' && value_eqb v v') eqn:E.
  - apply andb_true_iff in E. destruct E as [_ E].
    apply value_eqb_eq in E. subst v'.
    destruct (Hh e' t' v (or_introl eq_refl)) as [r Er].
    exfalso. exact (Hv r Er).
  - simpl. f_equal. apply IH. intros e0 t0 v0 Hin.
    apply (Hh e0 t0 v0). now right.
Qed.

Lemma handler_listeners_kept r this w :
  only_handlers w -> (forall r', this <> handler r') ->
  listeners (exec (animationCompleteHandler r this) w) = listeners w.
Proof.
  intros Hh Hv. rewrite handler_listeners.
  destruct (run_cancelOnUserAction (runs w r)); [|reflexivity].
  cbv zeta.
  rewrite (remove_listener_foreign _ wheel this (listeners w) Hh Hv).
  rewrite (remove_listener_foreign _ touchstart this (listeners w) Hh Hv).
  rewrite (remove_listener_foreign _ mousedown this (listeners w) Hh Hv).
  apply (remove_listener_foreign _ keydown this (listeners w) Hh Hv).
Qed.

Lemma frame_listeners_kept r timestamp w :
  only_handlers w -> listeners (exec (frame r timestamp) w) = listeners w.
Proof.
  intro Hh. rewrite frame_unfold. cbv zeta.
  destruct (continues timestamp (runs w r)); [reflexivity|].
  rewrite handler_listeners_kept; [reflexivity | exact Hh | discriminate].
Qed.

Lemma run_callbacks_listeners_kept timestamp hs :
  forall w, only_handlers w ->
            listeners (exec (run_callbacks timestamp hs) w) = listeners w.
Proof.
  induction hs as [|h hs IH]; intros w Hh; [reflexivity|].
  simpl. rewrite exec_bind.
  assert (E : listeners (exec (run_callback timestamp h) w) = listeners w).
  { unfold run_callback, exec.
    destruct (find _ (callbacks w)) as [[h' r]|]; [|reflexivity].
    exact (frame_listeners_kept r timestamp
             (set_callbacks (remove_callback h (callbacks w)) w) Hh). }
  rewrite IH; [exact E|]. unfold only_handlers. rewrite E. exact Hh.
Qed.

Lemma invoke_all_listeners_kept ls :
  forall w, only_handlers w ->
            listeners (exec (invoke_all ls) w) = listeners w.
Proof.
  induction ls as [|l ls IH]; intros w Hh; [reflexivity|].
  simpl. rewrite exec_bind.
  assert (E : listeners (exec (invoke l) w) = listeners w).
  { rewrite invoke_unfold. destruct (existsb _ _); [|reflexivity].
    destruct l as [[e t] [| |r]]; try reflexivity.
    apply handler_listeners_kept; [exact Hh | discriminate]. }
  rewrite IH; [exact E|]. unfold only_handlers. rewrite E. exact Hh.
Qed.

Lemma listeners_happen e w :
  only_handlers w ->
  only_handlers (happen e w) /\ incl (listeners w) (listeners (happen e w)).
Proof.
  intro Hh. destruct e as [u | ts | target type]; simpl.
  - split.
    + intros e t v Hin. apply animate_listeners in Hin.
      destruct Hin as [Hin | [_ [t' E]]]; [eapply Hh, Hin|].
      inversion E. eauto.
    + intros l Hin. apply animate_listeners. now left.
  - rewrite exec_tick.
    unfold only_handlers. rewrite run_callbacks_listeners_kept; auto.
    split; [exact Hh | apply incl_refl].
  - rewrite exec_dispatchEvent.
    unfold only_handlers. rewrite invoke_all_listeners_kept; auto.
    split; [exact Hh | apply incl_refl].
Qed.

Lemma listeners_play es :
  forall w, only_handlers w ->
            only_handlers (play es w) /\
            incl (listeners w) (listeners (play es w)).
Proof.
  induction es as [|e es IH]; intros w Hh; [split; [exact Hh|apply incl_refl]|].
  simpl. destruct (listeners_happen e w Hh) as [H1 H2].
  destruct (IH _ H1) as [H3 H4]. split; [exact H3|].
  eapply incl_tran; eauto.
Qed.

(** *** Where the code leaves the specification *)

(** C1.  On the page with one call of duration 300 whose first tick has
    timestamp 0, the run has had ticks at 0 and at 100 and waits for the
    next one.  The tick at 350 comes 350 after the first tick, which is
    not less than the duration; yet [step] is invoked with an eased
    value, here 7/6, and not with 1, [resolve] is not invoked and a
    further tick is pending.  The run ends at the tick at 400 only, 300
    after the second tick: the start had been recorded again there. *)
Theorem C1_deadline_missed_after_zero_start :
  let u := Some (mkPartial None None None (Some 300)) in
  let w2 := play [Call u; Tick 0; Tick 100] initial_world in
  pending 0%nat w2 = [(3%nat, 0%nat)] /\
  Qle_bool (run_duration (runs w2 0%nat)) (350 - 0) = true /\
  (let w3 := happen (Tick 350) w2 in
   map Qred (step_calls (runs w3 0%nat)) = [0; 1 # 3; 7 # 6] /\
   resolve_calls (runs w3 0%nat) = 0%nat /\
   pending 0%nat w3 = [(4%nat, 0%nat)]) /\
  (let w4 := play [Tick 350; Tick 400] w2 in
   map Qred (step_calls (runs w4 0%nat)) = [0; 1 # 3; 7 # 6; 1] /\
   resolve_calls (runs w4 0%nat) = 1%nat /\
   pending 0%nat w4 = []).
Proof. vm_compute. repeat split; reflexivity. Qed.

(** C2.  Listeners are registered by a call with [cancelOnUserAction]
    true and are not removed: in every history a listener once
    registered is registered ever after.  On the page with one call of
    duration 300: after the run has ended by its deadline all four
    listeners are still there; and two events after the first tick run
    the completion handler twice, [resolve] being invoked twice, with
    all four listeners still there. *)
Theorem C2_listeners_are_never_removed :
  (forall history later,
      incl (listeners (play history initial_world))
           (listeners (play later (play history initial_world)))) /\
  let u := Some (mkPartial None None None (Some 300)) in
  let w1 := exec (animate u) initial_world in
  let registered :=
    [ (window, wheel, handler 0%nat); (window, touchstart, handler 0%nat);
      (window, mousedown, handler 0%nat); (window, keydown, handler 0%nat) ]
  in
  listeners w1 = registered /\
  (let w2 := play [Tick 16; Tick 316] w1 in
   resolve_calls (runs w2 0%nat) = 1%nat /\ listeners w2 = registered) /\
  (let w2 := play [Tick 16; Signal window mousedown; Signal window wheel]
                  w1 in
   resolve_calls (runs w2 0%nat) = 2%nat /\ listeners w2 = registered).
Proof.
  split.
  - intros history later. apply listeners_play.
    apply (listeners_play history initial_world).
    intros e t v [].
  - vm_compute. repeat split; reflexivity.
Qed.

(** C3.  On the page with one call of duration 300, an event arrives
    before the first tick: the completion handler runs and [resolve] is
    invoked, but the run remembers no handle and its first tick stays
    pending.  The tick then invokes [step] and schedules the next one,
    and the run goes on to its deadline, where [resolve] is invoked a
    second time. *)
Theorem C3_first_tick_survives_cancellation :
  let u := Some (mkPartial None None None (Some 300)) in
  let w1 := play [Call u; Signal window mousedown] initial_world in
  resolve_calls (runs w1 0%nat) = 1%nat /\
  requestId (runs w1 0%nat) = None /\
  pending 0%nat w1 = [(1%nat, 0%nat)] /\
  (let w2 := happen (Tick 16) w1 in
   map Qred (step_calls (runs w2 0%nat)) = [0] /\
   pending 0%nat w2 = [(2%nat, 0%nat)]) /\
  (let w3 := play [Tick 16; Tick 116; Tick 316] w1 in
   map Qred (step_calls (runs w3 0%nat)) = [0; 1 # 3; 1] /\
   resolve_calls (runs w3 0%nat) = 2%nat).
Proof. vm_compute. repeat split; reflexivity. Qed.

(** C4.  A call writes its merged options into the shared
    [defaultOptions] object.  After a call with [cancelOnUserAction]
    false and duration 300, the object holds those values, and a call
    without options runs with them: it registers no listener and has
    duration 300. *)
Theorem C4_defaultOptions_is_overwritten :
  (forall u w, defaultOptions (exec (animate u) w)
               = Object_assign (defaultOptions w) u) /\
  let w1 := exec (animate (Some (mkPartial (Some false) None None
                                           (Some 300)))) initial_world in
  cancelOnUserAction (defaultOptions initial_world) = true /\
  duration (defaultOptions initial_world) = 1000 /\
  cancelOnUserAction (defaultOptions w1) = false /\
  duration (defaultOptions w1) = 300 /\
  let w2 := exec (animate None) w1 in
  run_cancelOnUserAction (runs w2 1%nat) = false /\
  run_duration (runs w2 1%nat) = 300 /\
  listeners w2 = [].
Proof.
  split.
  - intros u w. apply animate_counters.
  - vm_compute. repeat split; reflexivity.
Qed.

(** C7.  On the page with one call of duration 300 whose first tick has
    timestamp 0: the start recorded at the first tick is 0, and the
    second tick, at 100, records 100 in its place.  The deadline is then
    counted from 100: the tick at 350 still invokes [step] with an
    eased value, here 7/6, and the run is not done. *)
Theorem C7_start_recorded_again_after_zero :
  let u := Some (mkPartial None None None (Some 300)) in
  let w1 := play [Call u; Tick 0] initial_world in
  start (runs w1 0%nat) = Some 0 /\
  (let w2 := happen (Tick 100) w1 in start (runs w2 0%nat) = Some 100) /\
  (let w3 := play [Tick 100; Tick 350] w1 in
   map Qred (step_calls (runs w3 0%nat)) = [0; 1 # 3; 7 # 6] /\
   resolve_calls (runs w3 0%nat) = 0%nat).
Proof. vm_compute. repeat split; reflexivity. Qed.

End AnimateFacts.


(* ================================================================= *)
(** ** The shape of the easing curves *)

(** The facts of this section are facts of the formulas in exact
    arithmetic.  They compare values that differ by less than a rounding
    step of a double, so they are not claimed of the rounded values. *)

Section EasingShape.

Import Easing.

(** Products of bounded non-negative numbers. *)
Lemma mul_mono (a b c d : Q) :
  0 <= a <= b -> 0 <= c <= d -> 0 <= a * c <= b * d.
Proof. intros [Ha Hab] [Hc Hcd]. split; nra. Qed.

Lemma mul_pos (a b : Q) : 0 < a -> 0 < b -> 0 < a * b.
Proof. intros Ha Hb. nra. Qed.

(** Powers, as the source writes them, of numbers in order. *)
Lemma powers_mono (s t : Q) :
  0 <= s <= t ->
  0 <= s * s <= t * t /\
  0 <= s * s * s <= t * t * t /\
  0 <= s * s * s * s <= t * t * t * t /\
  0 <= s * s * s * s * s <= t * t * t * t * t.
Proof.
  intro H.
  assert (H2 : 0 <= s * s <= t * t) by (apply mul_mono; exact H).
  assert (H3 : 0 <= s * s * s <= t * t * t) by (apply mul_mono; assumption).
  assert (H4 : 0 <= s * s * s * s <= t * t * t * t)
    by (apply mul_mono; assumption).
  assert (H5 : 0 <= s * s * s * s * s <= t * t * t * t * t)
    by (apply mul_mono; assumption).
  tauto.
Qed.

(** Powers of a number of the unit interval go down with the degree. *)
Lemma powers_decrease (t : Q) :
  0 <= t <= 1 ->
  t * t <= t /\ t * t * t <= t * t /\ t * t * t * t <= t * t * t /\
  t * t * t * t * t <= t * t * t * t.
Proof.
  intro H. destruct (powers_mono 0 t) as (H2 & H3 & H4 & H5); [lra|].
  repeat split; nra.
Qed.

Lemma powers_pos (t : Q) :
  0 < t ->
  0 < t * t /\ 0 < t * t * t /\ 0 < t * t * t * t /\
  0 < t * t * t * t * t.
Proof.
  intro H.
  assert (H2 : 0 < t * t) by now apply mul_pos.
  assert (H3 : 0 < t * t * t) by now apply mul_pos.
  assert (H4 : 0 < t * t * t * t) by now apply mul_pos.
  assert (H5 : 0 < t * t * t * t * t) by now apply mul_pos.
  tauto.
Qed.

Lemma easeOut_by_easeIn (t : Q) :
  easeOutQuad t == 1 - easeInQuad (1 - t) /\
  easeOutCubic t == 1 - easeInCubic (1 - t) /\
  easeOutQuart t == 1 - easeInQuart (1 - t) /\
  easeOutQuint t == 1 - easeInQuint (1 - t).
Proof.
  unfold easeOutQuad, easeInQuad, easeOutCubic, easeInCubic, easeOutQuart,
    easeInQuart, easeOutQuint, easeInQuint. cbv zeta.
  repeat split; ring.
Qed.

(** X1.  Each ease-out curve is its ease-in curve turned about the
    centre of the unit square: easeOut(t) = 1 - easeIn(1 - t), at every
    input, in exact arithmetic. *)
Theorem easeOut_mirrors_easeIn (t : Q) :
  easeOutQuad t == 1 - easeInQuad (1 - t) /\
  easeOutCubic t == 1 - easeInCubic (1 - t) /\
  easeOutQuart t == 1 - easeInQuart (1 - t) /\
  easeOutQuint t == 1 - easeInQuint (1 - t).
Proof.
  unfold easeOutQuad, easeInQuad, easeOutCubic, easeInCubic, easeOutQuart,
    easeInQuart, easeOutQuint, easeInQuint. cbv zeta.
  repeat split; ring.
Qed.

Lemma easeInOut_point_symmetry (t : Q) :
  easeInOutQuad (1 - t) == 1 - easeInOutQuad t /\
  easeInOutCubic (1 - t) == 1 - easeInOutCubic t /\
  easeInOutQuart (1 - t) == 1 - easeInOutQuart t /\
  easeInOutQuint (1 - t) == 1 - easeInOutQuint t.
Proof.
  unfold easeInOutQuad, easeInOutCubic, easeInOutQuart, easeInOutQuint.
  split_half t E;
    [apply Qlt_bool_iff in E | apply Qlt_bool_false_iff in E];
    (split_half (1 - t) E';
     [apply Qlt_bool_iff in E' | apply Qlt_bool_false_iff in E']);
    cbv zeta.
  - exfalso. lra.
  - repeat split; ring.
  - repeat split; ring.
  - assert (Et : t == 1 # 2) by lra.
    repeat split; rewrite Et; reflexivity.
Qed.

(** X2.  In exact arithmetic each ease-in-out curve is symmetric about
    the centre of the unit square: f(1 - t) = 1 - f(t), at every input,
    the branch point 1/2 included. *)
Theorem easeInOut_symmetric (t : Q) :
  easeInOutQuad (1 - t) == 1 - easeInOutQuad t /\
  easeInOutCubic (1 - t) == 1 - easeInOutCubic t /\
  easeInOutQuart (1 - t) == 1 - easeInOutQuart t /\
  easeInOutQuint (1 - t) == 1 - easeInOutQuint t.
Proof.
  unfold easeInOutQuad, easeInOutCubic, easeInOutQuart, easeInOutQuint.
  destruct (Qlt_le_dec t (1 # 2)) as [Hl | Hu].
  - assert (E : Qlt_bool t 0.5 = true) by (apply Qlt_bool_iff; lra).
    assert (E' : Qlt_bool (1 - t) 0.5 = false)
      by (apply Qlt_bool_false_iff; lra).
    rewrite E, E'. cbv zeta. repeat split; ring.
  - assert (E : Qlt_bool t 0.5 = false) by (apply Qlt_bool_false_iff; lra).
    rewrite E. destruct (Qlt_bool (1 - t) 0.5) eqn:E'; cbv zeta.
    + repeat split; ring.
    + apply Qlt_bool_false_iff in E'. assert (Et : t == 1 # 2) by lra.
      repeat split; rewrite Et; reflexivity.
Qed.

(** X3.  In exact arithmetic each ease-in-out curve is its ease-in curve
    at half scale on the lower half and its ease-out curve at half scale
    on the upper half. *)
Theorem easeInOut_is_in_then_out (t : Q) :
  easeInOutQuad t
  == (if Qlt_bool t 0.5 then easeInQuad (2 * t) / 2
      else (1 + easeOutQuad (2 * t - 1)) / 2) /\
  easeInOutCubic t
  == (if Qlt_bool t 0.5 then easeInCubic (2 * t) / 2
      else (1 + easeOutCubic (2 * t - 1)) / 2) /\
  easeInOutQuart t
  == (if Qlt_bool t 0.5 then easeInQuart (2 * t) / 2
      else (1 + easeOutQuart (2 * t - 1)) / 2) /\
  easeInOutQuint t
  == (if Qlt_bool t 0.5 then easeInQuint (2 * t) / 2
      else (1 + easeOutQuint (2 * t - 1)) / 2).
Proof.
  unfold easeInOutQuad, easeInOutCubic, easeInOutQuart, easeInOutQuint,
    easeInQuad, easeOutQuad, easeInCubic, easeOutCubic, easeInQuart,
    easeOutQuart, easeInQuint, easeOutQuint.
  destruct (Qlt_bool t 0.5); cbv zeta; repeat split; field.
Qed.

(** The order of the curves on the unit interval. *)
Lemma easeIn_order (t : Q) :
  0 <= t <= 1 ->
  easeInQuint t <= easeInQuart t /\ easeInQuart t <= easeInCubic t /\
  easeInCubic t <= easeInQuad t /\ easeInQuad t <= linear t.
Proof.
  intro H. unfold easeInQuint, easeInQuart, easeInCubic, easeInQuad, linear.
  destruct (powers_decrease t H) as (H2 & H3 & H4 & H5). tauto.
Qed.

(** X4.  In exact arithmetic the curves are in order on the unit
    interval: a higher degree eases in lower and eases out higher, with
    the linear curve between the two families. *)
Theorem catalog_order (t : Q) :
  0 <= t <= 1 ->
  easeInQuint t <= easeInQuart t /\ easeInQuart t <= easeInCubic t /\
  easeInCubic t <= easeInQuad t /\ easeInQuad t <= linear t /\
  linear t <= easeOutQuad t /\ easeOutQuad t <= easeOutCubic t /\
  easeOutCubic t <= easeOutQuart t /\ easeOutQuart t <= easeOutQuint t.
Proof.
  intro H.
  destruct (easeIn_order t H) as (A1 & A2 & A3 & A4).
  assert (Hu : 0 <= 1 - t <= 1) by lra.
  destruct (easeIn_order (1 - t) Hu) as (B1 & B2 & B3 & B4).
  destruct (easeOut_by_easeIn t) as (M2 & M3 & M4 & M5).
  unfold linear in *. rewrite M2, M3, M4, M5.
  repeat split; try assumption; lra.
Qed.

Lemma catalog_order_witness :
  0 <= 1 # 4 <= 1 /\ easeInQuint (1 # 4) <= easeInQuart (1 # 4) /\
  easeOutQuart (1 # 4) <= easeOutQuint (1 # 4).
Proof.
  assert (H : 0 <= 1 # 4 <= 1) by (split; discriminate).
  split; [exact H|].
  split; [exact (proj1 (catalog_order _ H))|].
  exact (proj2 (proj2 (proj2 (proj2 (proj2 (proj2 (proj2
           (catalog_order _ H)))))))).
Defined.

(** Each curve does not go down on the unit interval. *)

Lemma linear_monotone s t : 0 <= s -> s <= t -> t <= 1 -> linear s <= linear t.
Proof. unfold linear. tauto. Qed.

Lemma easeInQuad_monotone s t :
  0 <= s -> s <= t -> t <= 1 -> easeInQuad s <= easeInQuad t.
Proof.
  intros H0 H1 H2. unfold easeInQuad.
  destruct (powers_mono s t) as (P2 & P3 & P4 & P5); [lra|]. lra.
Qed.

Lemma easeInCubic_monotone s t :
  0 <= s -> s <= t -> t <= 1 -> easeInCubic s <= easeInCubic t.
Proof.
  intros H0 H1 H2. unfold easeInCubic.
  destruct (powers_mono s t) as (P2 & P3 & P4 & P5); [lra|]. lra.
Qed.

Lemma easeInQuart_monotone s t :
  0 <= s -> s <= t -> t <= 1 -> easeInQuart s <= easeInQuart t.
Proof.
  intros H0 H1 H2. unfold easeInQuart.
  destruct (powers_mono s t) as (P2 & P3 & P4 & P5); [lra|]. lra.
Qed.

Lemma easeInQuint_monotone s t :
  0 <= s -> s <= t -> t <= 1 -> easeInQuint s <= easeInQuint t.
Proof.
  intros H0 H1 H2. unfold easeInQuint.
  destruct (powers_mono s t) as (P2 & P3 & P4 & P5); [lra|]. lra.
Qed.

Lemma easeOutQuad_monotone s t :
  0 <= s -> s <= t -> t <= 1 -> easeOutQuad s <= easeOutQuad t.
Proof.
  intros H0 H1 H2.
  rewrite (proj1 (easeOut_by_easeIn s)).
  rewrite (proj1 (easeOut_by_easeIn t)).
  assert (easeInQuad (1 - t) <= easeInQuad (1 - s))
    by (apply easeInQuad_monotone; lra).
  lra.
Qed.

Lemma easeOutCubic_monotone s t :
  0 <= s -> s <= t -> t <= 1 -> easeOutCubic s <= easeOutCubic t.
Proof.
  intros H0 H1 H2.
  rewrite (proj1 (proj2 (easeOut_by_easeIn s))).
  rewrite (proj1 (proj2 (easeOut_by_easeIn t))).
  assert (easeInCubic (1 - t) <= easeInCubic (1 - s))
    by (apply easeInCubic_monotone; lra).
  lra.
Qed.

Lemma easeOutQuart_monotone s t :
  0 <= s -> s <= t -> t <= 1 -> easeOutQuart s <= easeOutQuart t.
Proof.
  intros H0 H1 H2.
  rewrite (proj1 (proj2 (proj2 (easeOut_by_easeIn s)))).
  rewrite (proj1 (proj2 (proj2 (easeOut_by_easeIn t)))).
  assert (easeInQuart (1 - t) <= easeInQuart (1 - s))
    by (apply easeInQuart_monotone; lra).
  lra.
Qed.

Lemma easeOutQuint_monotone s t :
  0 <= s -> s <= t -> t <= 1 -> easeOutQuint s <= easeOutQuint t.
Proof.
  intros H0 H1 H2.
  rewrite (proj2 (proj2 (proj2 (easeOut_by_easeIn s)))).
  rewrite (proj2 (proj2 (proj2 (easeOut_by_easeIn t)))).
  assert (easeInQuint (1 - t) <= easeInQuint (1 - s))
    by (apply easeInQuint_monotone; lra).
  lra.
Qed.

(** An ease-in-out curve: below 1/2 on the lower half, not below 1/2 on
    the upper half, and not going down within each half. *)
Lemma easeInOutQuad_monotone s t :
  0 <= s -> s <= t -> t <= 1 -> easeInOutQuad s <= easeInOutQuad t.
Proof.
  intros H0 H1 H2. unfold easeInOutQuad.
  split_half s Es;
    [apply Qlt_bool_iff in Es | apply Qlt_bool_false_iff in Es];
    (split_half t Et;
     [apply Qlt_bool_iff in Et | apply Qlt_bool_false_iff in Et]).
  - destruct (powers_mono s t) as (P2 & _); [lra|].
    assert (2 * s * s == 2 * (s * s)) by ring.
    assert (2 * t * t == 2 * (t * t)) by ring. lra.
  - destruct (powers_mono s (1 # 2)) as (P2 & _); [lra|].
    destruct (powers_mono (1 - t) (1 # 2)) as (Q2 & _); [lra|].
    assert (2 * s * s == 2 * (s * s)) by ring.
    assert (- (1) + (4 - 2 * t) * t == 1 - 2 * ((1 - t) * (1 - t))) by ring.
    lra.
  - exfalso. lra.
  - destruct (powers_mono (1 - t) (1 - s)) as (P2 & _); [lra|].
    assert (- (1) + (4 - 2 * s) * s == 1 - 2 * ((1 - s) * (1 - s))) by ring.
    assert (- (1) + (4 - 2 * t) * t == 1 - 2 * ((1 - t) * (1 - t))) by ring.
    lra.
Qed.

Lemma easeInOutCubic_monotone s t :
  0 <= s -> s <= t -> t <= 1 -> easeInOutCubic s <= easeInOutCubic t.
Proof.
  intros H0 H1 H2. unfold easeInOutCubic.
  split_half s Es;
    [apply Qlt_bool_iff in Es | apply Qlt_bool_false_iff in Es];
    (split_half t Et;
     [apply Qlt_bool_iff in Et | apply Qlt_bool_false_iff in Et]).
  - destruct (powers_mono s t) as (_ & P3 & _); [lra|].
    assert (4 * s * s * s == 4 * (s * s * s)) by ring.
    assert (4 * t * t * t == 4 * (t * t * t)) by ring. lra.
  - destruct (powers_mono s (1 # 2)) as (_ & P3 & _); [lra|].
    destruct (powers_mono (1 - t) (1 # 2)) as (_ & Q3 & _); [lra|].
    assert (4 * s * s * s == 4 * (s * s * s)) by ring.
    assert ((t - 1) * (2 * t - 2) * (2 * t - 2) + 1
            == 1 - 4 * ((1 - t) * (1 - t) * (1 - t))) by ring.
    lra.
  - exfalso. lra.
  - destruct (powers_mono (1 - t) (1 - s)) as (_ & P3 & _); [lra|].
    assert ((s - 1) * (2 * s - 2) * (2 * s - 2) + 1
            == 1 - 4 * ((1 - s) * (1 - s) * (1 - s))) by ring.
    assert ((t - 1) * (2 * t - 2) * (2 * t - 2) + 1
            == 1 - 4 * ((1 - t) * (1 - t) * (1 - t))) by ring.
    lra.
Qed.

Lemma easeInOutQuart_monotone s t :
  0 <= s -> s <= t -> t <= 1 -> easeInOutQuart s <= easeInOutQuart t.
Proof.
  intros H0 H1 H2. unfold easeInOutQuart.
  split_half s Es;
    [apply Qlt_bool_iff in Es | apply Qlt_bool_false_iff in Es];
    (split_half t Et;
     [apply Qlt_bool_iff in Et | apply Qlt_bool_false_iff in Et]);
    cbv zeta.
  - destruct (powers_mono s t) as (_ & _ & P4 & _); [lra|].
    assert (8 * s * s * s * s == 8 * (s * s * s * s)) by ring.
    assert (8 * t * t * t * t == 8 * (t * t * t * t)) by ring. lra.
  - destruct (powers_mono s (1 # 2)) as (_ & _ & P4 & _); [lra|].
    destruct (powers_mono (1 - t) (1 # 2)) as (_ & _ & Q4 & _); [lra|].
    assert (8 * s * s * s * s == 8 * (s * s * s * s)) by ring.
    assert (1 - 8 * (t - 1) * (t - 1) * (t - 1) * (t - 1)
            == 1 - 8 * ((1 - t) * (1 - t) * (1 - t) * (1 - t))) by ring.
    lra.
  - exfalso. lra.
  - destruct (powers_mono (1 - t) (1 - s)) as (_ & _ & P4 & _); [lra|].
    assert (1 - 8 * (s - 1) * (s - 1) * (s - 1) * (s - 1)
            == 1 - 8 * ((1 - s) * (1 - s) * (1 - s) * (1 - s))) by ring.
    assert (1 - 8 * (t - 1) * (t - 1) * (t - 1) * (t - 1)
            == 1 - 8 * ((1 - t) * (1 - t) * (1 - t) * (1 - t))) by ring.
    lra.
Qed.

Lemma easeInOutQuint_monotone s t :
  0 <= s -> s <= t -> t <= 1 -> easeInOutQuint s <= easeInOutQuint t.
Proof.
  intros H0 H1 H2. unfold easeInOutQuint.
  split_half s Es;
    [apply Qlt_bool_iff in Es | apply Qlt_bool_false_iff in Es];
    (split_half t Et;
     [apply Qlt_bool_iff in Et | apply Qlt_bool_false_iff in Et]);
    cbv zeta.
  - destruct (powers_mono s t) as (_ & _ & _ & P5); [lra|].
    assert (16 * s * s * s * s * s == 16 * (s * s * s * s * s)) by ring.
    assert (16 * t * t * t * t * t == 16 * (t * t * t * t * t)) by ring.
    lra.
  - destruct (powers_mono s (1 # 2)) as (_ & _ & _ & P5); [lra|].
    destruct (powers_mono (1 - t) (1 # 2)) as (_ & _ & _ & Q5); [lra|].
    assert (16 * s * s * s * s * s == 16 * (s * s * s * s * s)) by ring.
    assert (1 + 16 * (t - 1) * (t - 1) * (t - 1) * (t - 1) * (t - 1)
            == 1 - 16 * ((1 - t) * (1 - t) * (1 - t) * (1 - t) * (1 - t)))
      by ring.
    lra.
  - exfalso. lra.
  - destruct (powers_mono (1 - t) (1 - s)) as (_ & _ & _ & P5); [lra|].
    assert (1 + 16 * (s - 1) * (s - 1) * (s - 1) * (s - 1) * (s - 1)
            == 1 - 16 * ((1 - s) * (1 - s) * (1 - s) * (1 - s) * (1 - s)))
      by ring.
    assert (1 + 16 * (t - 1) * (t - 1) * (t - 1) * (t - 1) * (t - 1)
            == 1 - 16 * ((1 - t) * (1 - t) * (1 - t) * (1 - t) * (1 - t)))
      by ring.
    lra.
Qed.

(** X5.  In exact arithmetic no function of the exported catalog goes
    down on the unit interval: a later input never gives a smaller
    value. *)
Theorem catalog_monotone (name : string) (f : EasingFunction) (s t : Q) :
  In (name, f) EasingFunctions ->
  0 <= s -> s <= t -> t <= 1 -> f s <= f t.
Proof.
  unfold EasingFunctions. simpl. intros H H0 H1 H2.
  repeat (destruct H as [H | H]; [ injection H as _ <- | ]);
    try contradiction.
  - now apply linear_monotone.
  - now apply easeInQuad_monotone.
  - now apply easeOutQuad_monotone.
  - now apply easeInOutQuad_monotone.
  - now apply easeInCubic_monotone.
  - now apply easeOutCubic_monotone.
  - now apply easeInOutCubic_monotone.
  - now apply easeInQuart_monotone.
  - now apply easeOutQuart_monotone.
  - now apply easeInOutQuart_monotone.
  - now apply easeInQuint_monotone.
  - now apply easeOutQuint_monotone.
  - now apply easeInOutQuint_monotone.
Qed.

Lemma catalog_monotone_witness :
  In ("easeInOutCubic"%string, easeInOutCubic) EasingFunctions /\
  0 <= 1 # 4 /\ 1 # 4 <= 3 # 4 /\ 3 # 4 <= 1 /\
  easeInOutCubic (1 # 4) <= easeInOutCubic (3 # 4).
Proof.
  assert (H : In ("easeInOutCubic"%string, easeInOutCubic) EasingFunctions)
    by (simpl; tauto).
  assert (H0 : 0 <= 1 # 4) by discriminate.
  assert (H1 : 1 # 4 <= 3 # 4) by discriminate.
  assert (H2 : 3 # 4 <= 1) by discriminate.
  split; [exact H|]. split; [exact H0|]. split; [exact H1|].
  split; [exact H2|].
  exact (catalog_monotone _ _ _ _ H H0 H1 H2).
Defined.

(** Inside the unit interval each curve is strictly between its end
    values. *)

Lemma easeIn_below_one (t : Q) :
  0 <= t -> t < 1 ->
  easeInQuad t < 1 /\ easeInCubic t < 1 /\ easeInQuart t < 1 /\
  easeInQuint t < 1.
Proof.
  intros H0 H1. destruct (easeIn_order t) as (A1 & A2 & A3 & A4); [lra|].
  unfold linear in A4. repeat split; lra.
Qed.

Lemma easeIn_above_zero (t : Q) :
  0 < t ->
  0 < easeInQuad t /\ 0 < easeInCubic t /\ 0 < easeInQuart t /\
  0 < easeInQuint t.
Proof.
  intro H. unfold easeInQuad, easeInCubic, easeInQuart, easeInQuint.
  now apply powers_pos.
Qed.

Lemma easeInOut_halves (t : Q) :
  0 <= t <= 1 ->
  (t < 1 # 2 ->
   easeInOutQuad t <= 1 # 2 /\ easeInOutCubic t <= 1 # 2 /\
   easeInOutQuart t <= 1 # 2 /\ easeInOutQuint t <= 1 # 2) /\
  (1 # 2 <= t ->
   1 # 2 <= easeInOutQuad t /\ 1 # 2 <= easeInOutCubic t /\
   1 # 2 <= easeInOutQuart t /\ 1 # 2 <= easeInOutQuint t).
Proof.
  intro H. split; intro Ht.
  - assert (Hm : forall f, f (1 # 2) == 1 # 2 -> f t <= f (1 # 2) ->
                           f t <= 1 # 2) by (intros f E L; lra).
    repeat split; apply Hm; try reflexivity.
    + apply easeInOutQuad_monotone; lra.
    + apply easeInOutCubic_monotone; lra.
    + apply easeInOutQuart_monotone; lra.
    + apply easeInOutQuint_monotone; lra.
  - assert (Hm : forall f, f (1 # 2) == 1 # 2 -> f (1 # 2) <= f t ->
                           1 # 2 <= f t) by (intros f E L; lra).
    repeat split; apply Hm; try reflexivity.
    + apply easeInOutQuad_monotone; lra.
    + apply easeInOutCubic_monotone; lra.
    + apply easeInOutQuart_monotone; lra.
    + apply easeInOutQuint_monotone; lra.
Qed.

Lemma easeInOut_below_one (t : Q) :
  0 <= t -> t < 1 ->
  easeInOutQuad t < 1 /\ easeInOutCubic t < 1 /\ easeInOutQuart t < 1 /\
  easeInOutQuint t < 1.
Proof.
  intros H0 H1.
  destruct (Qlt_le_dec t (1 # 2)) as [Hl | Hu].
  - destruct (easeInOut_halves t) as [A _]; [lra|].
    destruct (A Hl) as (A2 & A3 & A4 & A5). repeat split; lra.
  - destruct (powers_pos (1 - t)) as (P2 & P3 & P4 & P5); [lra|].
    assert (Eb : Qlt_bool t 0.5 = false) by (apply Qlt_bool_false_iff; lra).
    unfold easeInOutQuad, easeInOutCubic, easeInOutQuart, easeInOutQuint.
    rewrite Eb. cbv zeta.
    assert (- (1) + (4 - 2 * t) * t == 1 - 2 * ((1 - t) * (1 - t))) by ring.
    assert ((t - 1) * (2 * t - 2) * (2 * t - 2) + 1
            == 1 - 4 * ((1 - t) * (1 - t) * (1 - t))) by ring.
    assert (1 - 8 * (t - 1) * (t - 1) * (t - 1) * (t - 1)
            == 1 - 8 * ((1 - t) * (1 - t) * (1 - t) * (1 - t))) by ring.
    assert (1 + 16 * (t - 1) * (t - 1) * (t - 1) * (t - 1) * (t - 1)
            == 1 - 16 * ((1 - t) * (1 - t) * (1 - t) * (1 - t) * (1 - t)))
      by ring.
    repeat split; lra.
Qed.

Lemma catalog_below_one (name : string) (f : EasingFunction) (t : Q) :
  In (name, f) EasingFunctions -> 0 <= t -> t < 1 -> f t < 1.
Proof.
  intros H H0 H1.
  destruct (easeIn_below_one t H0 H1) as (I2 & I3 & I4 & I5).
  destruct (easeInOut_below_one t H0 H1) as (B2 & B3 & B4 & B5).
  destruct (easeIn_above_zero (1 - t)) as (O2 & O3 & O4 & O5); [lra|].
  destruct (easeOut_by_easeIn t) as (M2 & M3 & M4 & M5).
  unfold EasingFunctions in H. simpl in H.
  repeat (destruct H as [H | H]; [ injection H as _ <- | ]);
    try contradiction; try assumption; try (unfold linear; lra); lra.
Qed.

Lemma catalog_above_zero (name : string) (f : EasingFunction) (t : Q) :
  In (name, f) EasingFunctions -> 0 < t -> t <= 1 -> 0 < f t.
Proof.
  intros H H0 H1.
  destruct (easeIn_above_zero t H0) as (I2 & I3 & I4 & I5).
  assert (Hu0 : 0 <= 1 - t) by lra. assert (Hu1 : 1 - t < 1) by lra.
  destruct (easeIn_below_one (1 - t) Hu0 Hu1) as (O2 & O3 & O4 & O5).
  destruct (easeInOut_below_one (1 - t) Hu0 Hu1) as (B2 & B3 & B4 & B5).
  destruct (easeOut_by_easeIn t) as (M2 & M3 & M4 & M5).
  assert (S : easeInOutQuad (1 - t) == 1 - easeInOutQuad t /\
              easeInOutCubic (1 - t) == 1 - easeInOutCubic t /\
              easeInOutQuart (1 - t) == 1 - easeInOutQuart t /\
              easeInOutQuint (1 - t) == 1 - easeInOutQuint t)
    by apply easeInOut_point_symmetry.
  destruct S as (S2 & S3 & S4 & S5).
  unfold EasingFunctions in H. simpl in H.
  repeat (destruct H as [H | H]; [ injection H as _ <- | ]);
    try contradiction; try assumption; try (unfold linear; lra); lra.
Qed.

(** X6.  In exact arithmetic each function of the exported catalog stays
    strictly between its end values inside the unit interval: below 1
    before the end, and above 0 after the beginning.  A value of exactly
    1 is reached at the end only. *)
Theorem catalog_strictly_inside (name : string) (f : EasingFunction) (t : Q) :
  In (name, f) EasingFunctions ->
  0 <= t <= 1 ->
  (t < 1 -> f t < 1) /\ (0 < t -> 0 < f t) /\ (f t == 1 -> t == 1).
Proof.
  intros H [H0 H1]. split; [|split].
  - intro Hl. now apply (catalog_below_one name).
  - intro Hl. now apply (catalog_above_zero name).
  - intro E. destruct (Qlt_le_dec t 1) as [Hl | Hu]; [|lra].
    pose proof (catalog_below_one name f t H H0 Hl). lra.
Qed.

Lemma catalog_strictly_inside_witness :
  In ("easeOutQuint"%string, easeOutQuint) EasingFunctions /\
  0 <= 9 # 10 <= 1 /\ 9 # 10 < 1 /\ easeOutQuint (9 # 10) < 1.
Proof.
  assert (H : In ("easeOutQuint"%string, easeOutQuint) EasingFunctions)
    by (simpl; tauto).
  assert (Ht : 0 <= 9 # 10 <= 1) by (split; discriminate).
  assert (Hl : 9 # 10 < 1) by reflexivity.
  split; [exact H|]. split; [exact Ht|]. split; [exact Hl|].
  exact (proj1 (catalog_strictly_inside _ _ _ H Ht) Hl).
Defined.






End EasingShape.

(* ================================================================= *)
(** ** More about the animation driver *)

Section AnimateMore.

Import Easing Animate.

(** *** Ticks of several runs *)

(** X7.  In every history a run has at most one tick pending, and no
    handle is pending twice. *)
Theorem one_tick_pending (history : list Event) (r : RunId) :
  let w := play history initial_world in
  (List.length (pending r w) <= 1)%nat /\ NoDup (map fst (callbacks w)).
Proof.
  cbv zeta. pose proof (WF_reachable history) as H.
  split; [apply (wf_single _ H) | apply (wf_nodup _ H)].
Qed.

(** X8.  A display refresh runs each run that has a tick pending by one
    invocation of [frame], whatever other runs are pending with it: the
    variables of the run are what [frame] alone makes of them, up to the
    handle it is given; and it leaves a run without a pending tick as it
    is. *)
Theorem tick_runs_each_run_alone
        (history : list Event) (r : RunId) (timestamp : Q) :
  let w := play history initial_world in
  ((exists h, pending r w = [(h, r)]) ->
   same_run (runs (exec (tick timestamp) w) r)
            (runs (exec (frame r timestamp) w) r)) /\
  (pending r w = [] ->
   runs (exec (tick timestamp) w) r = runs w r /\
   pending r (exec (tick timestamp) w) = []).
Proof.
  cbv zeta. pose proof (WF_reachable history) as H. split.
  - intros [h Hp].
    destruct (tick_own r timestamp h _ H Hp) as [n [E _]].
    rewrite E, frame_runs, Nat.eqb_refl.
    now apply after_frame_same_run.
  - intro Hp. now apply tick_idle.
Qed.

Lemma tick_runs_each_run_alone_witness :
  let history :=
    [Call (Some (mkPartial None None (Some easeInQuad) (Some 300)));
     Call None; Tick 16] in
  let w := play history initial_world in
  (exists h, pending 0%nat w = [(h, 0%nat)]) /\
  same_run (runs (exec (tick 116) w) 0%nat)
           (runs (exec (frame 0%nat 116) w) 0%nat).
Proof.
  intros history w.
  assert (Hp : exists h, pending 0%nat w = [(h, 0%nat)])
    by (exists 3%nat; vm_compute; reflexivity).
  split; [exact Hp|].
  exact (proj1 (tick_runs_each_run_alone history 0%nat 116) Hp).
Defined.

(** *** Registration *)

Lemma addEventListener_new e t r w :
  ~ In (e, t, handler r) (listeners w) ->
  listeners (exec (addEventListener e t (handler r)) w)
  = listeners w ++ [(e, t, handler r)].
Proof.
  intro Hn. unfold addEventListener, exec.
  destruct (existsb _ (listeners w)) eqn:E; [|reflexivity].
  apply existsb_exists in E. destruct E as [l [Hin El]].
  apply listener_eqb_eq in El. subst l. contradiction.
Qed.

Lemma addListeners_new e r w :
  (forall t, ~ In (e, t, handler r) (listeners w)) ->
  listeners (exec (addListeners e (handler r)) w)
  = listeners w ++ four_listeners e (handler r).
Proof.
  intro Hn. unfold addListeners, four_listeners. rewrite !exec_bind.
  set (w1 := exec (addEventListener e wheel (handler r)) w).
  set (w2 := exec (addEventListener e touchstart (handler r)) w1).
  set (w3 := exec (addEventListener e mousedown (handler r)) w2).
  assert (E1 : listeners w1 = listeners w ++ [(e, wheel, handler r)])
    by (apply addEventListener_new, Hn).
  assert (E2 : listeners w2 = listeners w1 ++ [(e, touchstart, handler r)]).
  { apply addEventListener_new. rewrite E1. intro Hin.
    apply in_app_or in Hin.
    destruct Hin as [Hin | [E | []]]; [exact (Hn _ Hin) | discriminate]. }
  assert (E3 : listeners w3 = listeners w2 ++ [(e, mousedown, handler r)]).
  { apply addEventListener_new. rewrite E2, E1. intro Hin.
    repeat (apply in_app_or in Hin;
            destruct Hin as [Hin | [E | []]]; [|discriminate]).
    exact (Hn _ Hin). }
  rewrite addEventListener_new.
  - rewrite E3, E2, E1, <- !app_assoc. reflexivity.
  - rewrite E3, E2, E1. intro Hin.
    repeat (apply in_app_or in Hin;
            destruct Hin as [Hin | [E | []]]; [|discriminate]).
    exact (Hn _ Hin).
Qed.

(** X9.  A call whose effective [cancelOnUserAction] is true registers
    exactly four listeners on the effective element, for wheel,
    touchstart, mousedown and keydown in this order, all four with the
    completion handler of the new run; the listeners registered before
    stay in place. *)
Theorem animate_registers_four_listeners
        (history : list Event) (u : option PartialOptions) :
  let w := play history initial_world in
  let o := effective u w in
  cancelOnUserAction o = true ->
  listeners (exec (animate u) w)
  = listeners w ++ four_listeners (element o) (handler (next_run w)).
Proof.
  cbv zeta. intro Hc. rewrite animate_unfold. cbv zeta. rewrite Hc.
  match goal with
  | |- context [exec (requestAnimationFrame ?r) ?w0] =>
      destruct (requestAnimationFrame_fields r w0)
      as (_ & _ & _ & _ & _ & ->)
  end.
  rewrite addListeners_new; [reflexivity|].
  intros t Hin. simpl in Hin.
  apply (wf_listeners _ (WF_reachable history)) in Hin. lia.
Qed.

Lemma animate_registers_four_listeners_witness :
  let history := [Call None; Tick 16] in
  let u := Some (mkPartial None (Some (HTMLElement 7)) None None) in
  cancelOnUserAction (effective u (play history initial_world)) = true /\
  listeners (exec (animate u) (play history initial_world))
  = four_listeners window (handler 0%nat)
    ++ four_listeners (HTMLElement 7) (handler 1%nat).
Proof.
  intros history u.
  assert (Hc : cancelOnUserAction (effective u (play history initial_world))
               = true) by reflexivity.
  split; [exact Hc|].
  exact (animate_registers_four_listeners history u Hc).
Defined.

(** *** The options of a call *)

Lemma run_callbacks_defaultOptions timestamp hs :
  forall w, defaultOptions (exec (run_callbacks timestamp hs) w)
            = defaultOptions w.
Proof.
  induction hs as [|h hs IH]; intro w; [reflexivity|].
  simpl. rewrite exec_bind, IH. unfold run_callback, exec.
  destruct (find _ (callbacks w)) as [[h' r]|]; [|reflexivity].
  exact (frame_defaultOptions r timestamp
           (set_callbacks (remove_callback h (callbacks w)) w)).
Qed.

Lemma invoke_all_defaultOptions ls :
  forall w, defaultOptions (exec (invoke_all ls) w) = defaultOptions w.
Proof.
  induction ls as [|l ls IH]; intro w; [reflexivity|].
  simpl. rewrite exec_bind, IH, invoke_unfold.
  destruct (existsb _ _); [|reflexivity].
  destruct l as [[e t] [| |r]]; try reflexivity.
  apply handler_counters.
Qed.

Lemma happen_defaultOptions e w :
  defaultOptions (happen e w)
  = match e with
    | Call u => Object_assign (defaultOptions w) u
    | _ => defaultOptions w
    end.
Proof.
  destruct e as [u | ts | target type]; simpl.
  - apply animate_counters.
  - rewrite exec_tick. apply run_callbacks_defaultOptions.
  - rewrite exec_dispatchEvent. apply invoke_all_defaultOptions.
Qed.

Lemma play_defaultOptions es :
  forall w, defaultOptions (play es w)
            = fold_left Object_assign (call_options es) (defaultOptions w).
Proof.
  induction es as [|e es IH]; intro w; [reflexivity|].
  simpl play. rewrite IH, happen_defaultOptions.
  destruct e; reflexivity.
Qed.

Lemma Object_assign_latest us :
  forall o,
    let o' := fold_left Object_assign us o in
    cancelOnUserAction o'
    = latest cancelOnUserAction_opt (cancelOnUserAction o) us /\
    element o' = latest element_opt (element o) us /\
    easing o' = latest easing_opt (easing o) us /\
    duration o' = latest duration_opt (duration o) us.
Proof.
  induction us as [|u us IH]; intro o; [cbv zeta; simpl; auto|].
  cbv zeta. simpl. destruct (IH (Object_assign o u)) as (E1 & E2 & E3 & E4).
  cbv zeta in *. rewrite E1, E2, E3, E4. unfold latest. simpl.
  destruct u as [s|]; simpl; auto.
Qed.

(** X10.  Ticks and signals leave [defaultOptions] as it is; calls write
    into it.  The options a call works with are therefore, property by
    property, the value given by the last call so far that gave one, this
    call included, and the declared default (true, window, linear, 1000)
    if none did. *)
Theorem options_of_a_call
        (history : list Event) (u : option PartialOptions) :
  let o := effective u (play history initial_world) in
  let given := call_options history ++ [u] in
  cancelOnUserAction o = latest cancelOnUserAction_opt true given /\
  element o = latest element_opt window given /\
  easing o = latest easing_opt linear given /\
  duration o = latest duration_opt 1000 given.
Proof.
  cbv zeta. unfold effective. rewrite play_defaultOptions.
  change (Object_assign
            (fold_left Object_assign (call_options history)
                       (defaultOptions initial_world)) u)
    with (fold_left Object_assign [u]
            (fold_left Object_assign (call_options history)
                       (defaultOptions initial_world))).
  rewrite <- fold_left_app.
  exact (Object_assign_latest (call_options history ++ [u])
                              (defaultOptions initial_world)).
Qed.

(** *** What holds of every page a history leads to *)

Lemma only_handlers_reachable history :
  only_handlers (play history initial_world).
Proof.
  apply (listeners_play history initial_world). intros e t v [].
Qed.

Lemma happen_listeners e w :
  WF w -> only_handlers w ->
  listeners (happen e w)
  = match e with
    | Call u =>
        if cancelOnUserAction (effective u w)
        then listeners w
             ++ four_listeners (element (effective u w))
                               (handler (next_run w))
        else listeners w
    | _ => listeners w
    end.
Proof.
  intros H Hh. destruct e as [u | ts | target type]; simpl.
  - destruct (cancelOnUserAction (effective u w)) eqn:Hc.
    + rewrite animate_unfold. cbv zeta. rewrite Hc.
      match goal with
      | |- context [exec (requestAnimationFrame ?r) ?w0] =>
          destruct (requestAnimationFrame_fields r w0)
          as (_ & _ & _ & _ & _ & ->)
      end.
      rewrite addListeners_new; [reflexivity|].
      intros t Hin. simpl in Hin. apply (wf_listeners _ H) in Hin. lia.
    + now apply animate_listeners_off.
  - rewrite exec_tick. now apply run_callbacks_listeners_kept.
  - rewrite exec_dispatchEvent. now apply invoke_all_listeners_kept.
Qed.

Lemma happen_run_element e w r :
  WF w -> (r < next_run w)%nat ->
  run_element (runs (happen e w) r) = run_element (runs w r).
Proof.
  intros H Hr. destruct e as [u | ts | target type]; simpl.
  - rewrite animate_runs.
    assert (En : Nat.eqb r (next_run w) = false) by (apply Nat.eqb_neq; lia).
    now rewrite En.
  - apply tick_kept; auto. intros ts' n x Hx. unfold after_frame.
    destruct (continues ts' x); exact Hx.
  - rewrite exec_dispatchEvent. apply invoke_all_kept; auto.
Qed.

Lemma placed_happen e w :
  WF w -> only_handlers w -> placed w -> placed (happen e w).
Proof.
  intros H Hh [Hd Hp]. split.
  - rewrite happen_listeners by assumption.
    destruct e as [u | ts | target type]; try exact Hd.
    destruct (cancelOnUserAction (effective u w)); [|exact Hd].
    apply NoDup_app; [exact Hd | | ].
    + unfold four_listeners.
      repeat (constructor; [simpl; intuition discriminate|]). constructor.
    + intros l Hin Hin'. unfold four_listeners in Hin'. simpl in Hin'.
      assert (Hx : exists t, l = (element (effective u w), t,
                                  handler (next_run w)))
        by (destruct Hin' as [<- | [<- | [<- | [<- | []]]]]; eauto).
      destruct Hx as [t ->]. apply (wf_listeners _ H) in Hin. lia.
  - intros e' t r. rewrite happen_listeners by assumption.
    assert (Hold : In (e', t, handler r) (listeners w) ->
                   e' = run_element (runs (happen e w) r)).
    { intro Hin. rewrite happen_run_element.
      - now apply Hp in Hin.
      - exact H.
      - eapply wf_listeners; eauto. }
    destruct e as [u | ts | target type]; try exact Hold.
    destruct (cancelOnUserAction (effective u w)); [|exact Hold].
    intro Hin. apply in_app_or in Hin. destruct Hin as [Hin | Hin]; auto.
    unfold four_listeners in Hin. simpl in Hin.
    assert (Hx : e' = element (effective u w) /\ r = next_run w)
      by (destruct Hin as [E | [E | [E | [E | []]]]]; inversion E; auto).
    destruct Hx as [-> ->]. simpl. now rewrite animate_runs, Nat.eqb_refl.
Qed.

Lemma placed_reachable history : placed (play history initial_world).
Proof.
  assert (G : forall es w, WF w -> only_handlers w -> placed w ->
                           placed (play es w)).
  { induction es as [|e es IH]; intros w H Hh Hp; [exact Hp|].
    simpl. apply IH.
    - now apply WF_happen.
    - now apply listeners_happen.
    - now apply placed_happen. }
  apply G.
  - apply WF_initial.
  - intros e t v [].
  - split; [constructor | intros e t r []].
Qed.

(** The completion handler of a run that has had a tick leaves it without
    a pending tick. *)
Lemma handler_cancels r this w :
  WF w -> linked r w -> nextValueIterator (runs w r) <> None ->
  pending r (exec (animationCompleteHandler r this) w) = [].
Proof.
  intros H Hl Hi. unfold pending at 1. rewrite handler_callbacks.
  destruct (pending_cases r w H) as [Hp | [h Hp]].
  - destruct (requestId (runs w r)); [|exact Hp].
    rewrite callbacks_of_remove. fold (pending r w). now rewrite Hp.
  - rewrite (Hl h Hp Hi), callbacks_of_remove. fold (pending r w).
    rewrite Hp. unfold remove_callback. simpl. now rewrite Nat.eqb_refl.
Qed.

Lemma handler_pending_idle r r' this w :
  pending r w = [] ->
  pending r (exec (animationCompleteHandler r' this) w) = [].
Proof.
  intro Hp. unfold pending at 1. rewrite handler_callbacks.
  destruct (requestId (runs w r')); [|exact Hp].
  rewrite callbacks_of_remove. fold (pending r w). now rewrite Hp.
Qed.

Lemma linked_handler r r' this w :
  WF w -> linked r w -> linked r (exec (animationCompleteHandler r' this) w).
Proof.
  intros H Hl. destruct (Nat.eq_dec r' r) as [-> | Hn].
  - intros h Hp Hi.
    assert (Hi' : nextValueIterator (runs w r) <> None).
    { rewrite handler_runs, Nat.eqb_refl in Hi. exact Hi. }
    rewrite (handler_cancels r this w H Hl Hi') in Hp. discriminate.
  - destruct (handler_other r r' this w H Hn) as [E1 E2].
    unfold linked. rewrite E1, E2. exact Hl.
Qed.

Lemma linked_invoke_all r ls :
  forall w, WF w -> linked r w -> linked r (exec (invoke_all ls) w).
Proof.
  induction ls as [|l ls IH]; intros w H Hl; [exact Hl|].
  simpl. rewrite exec_bind. apply IH; [now apply WF_invoke|].
  rewrite invoke_unfold. destruct (existsb _ _); [|exact Hl].
  destruct l as [[e t] [| |r']]; try exact Hl.
  now apply linked_handler.
Qed.

Lemma linked_happen r e w : WF w -> linked r w -> linked r (happen e w).
Proof.
  intros H Hl. destruct e as [u | ts | target type]; simpl.
  - destruct (Nat.eq_dec r (next_run w)) as [-> | Hn].
    + intros h _ Hi. rewrite animate_runs, Nat.eqb_refl in Hi.
      simpl in Hi. congruence.
    + unfold linked. rewrite animate_runs, animate_pending.
      assert (En : Nat.eqb r (next_run w) = false) by now apply Nat.eqb_neq.
      assert (En' : Nat.eqb (next_run w) r = false)
        by (apply Nat.eqb_neq; congruence).
      rewrite En, En', app_nil_r. exact Hl.
  - destruct (pending_cases r w H) as [Hp | [h Hp]].
    + destruct (tick_idle r ts w H Hp) as [E1 E2].
      intros h' Hp'. rewrite E2 in Hp'. discriminate.
    + destruct (tick_own r ts h w H Hp) as [n [E1 E2]].
      intros h' Hp' _. rewrite E2 in Hp'. rewrite E1. unfold after_frame.
      destruct (continues ts (runs w r)); [|discriminate].
      inversion Hp'. reflexivity.
  - rewrite exec_dispatchEvent. now apply linked_invoke_all.
Qed.

Lemma linked_reachable history r : linked r (play history initial_world).
Proof.
  assert (G : forall es w, WF w -> linked r w -> linked r (play es w)).
  { induction es as [|e es IH]; intros w H Hl; [exact Hl|].
    simpl. apply IH; [now apply WF_happen | now apply linked_happen]. }
  apply G; [apply WF_initial|].
  intros h Hp. unfold pending in Hp. simpl in Hp. discriminate.
Qed.

(** *** What a signal does *)

Lemma handlers_of_cons r l ls :
  handlers_of r (l :: ls)
  = ((if value_eqb (snd l) (handler r) then 1 else 0) + handlers_of r ls)%nat.
Proof.
  unfold handlers_of. simpl. destruct (value_eqb (snd l) (handler r));
    reflexivity.
Qed.

Lemma invoke_present l w :
  In l (listeners w) ->
  exec (invoke l) w
  = match l with
    | (target, _, handler r) =>
        exec (animationCompleteHandler r (object target)) w
    | _ => w
    end.
Proof.
  intro Hin. rewrite invoke_unfold.
  assert (E : existsb (listener_eqb l) (listeners w) = true).
  { apply existsb_exists. exists l. split; [exact Hin|].
    now apply listener_eqb_eq. }
  now rewrite E.
Qed.

Lemma invoke_listeners_kept l w :
  only_handlers w -> listeners (exec (invoke l) w) = listeners w.
Proof.
  intro Hh. rewrite invoke_unfold. destruct (existsb _ _); [|reflexivity].
  destruct l as [[e t] [| |r]]; try reflexivity.
  apply handler_listeners_kept; [exact Hh | discriminate].
Qed.

Lemma linked_invoke r l w :
  WF w -> linked r w -> linked r (exec (invoke l) w).
Proof.
  intros H Hl. rewrite invoke_unfold. destruct (existsb _ _); [|exact Hl].
  destruct l as [[e t] [| |r']]; try exact Hl.
  now apply linked_handler.
Qed.

(** Listeners that are not handlers of run [r] leave the run alone. *)
Lemma invoke_all_foreign r ls :
  forall w, WF w -> handlers_of r ls = 0%nat ->
            runs (exec (invoke_all ls) w) r = runs w r /\
            pending r (exec (invoke_all ls) w) = pending r w.
Proof.
  induction ls as [|l ls IH]; intros w H Hz; [split; reflexivity|].
  rewrite handlers_of_cons in Hz.
  destruct (value_eqb (snd l) (handler r)) eqn:Ev; [discriminate|].
  simpl in Hz. simpl. rewrite exec_bind.
  destruct (IH (exec (invoke l) w) (WF_invoke l w H) Hz) as [E1 E2].
  rewrite E1, E2, invoke_unfold.
  destruct (existsb _ _); [|split; reflexivity].
  destruct l as [[e t] [| |r']]; try (split; reflexivity).
  apply handler_other; auto. intros ->. simpl in Ev.
  now rewrite Nat.eqb_refl in Ev.
Qed.

(** The listeners of a delivery, all still registered, among them
    handlers of run [r], which has had a tick: [resolve] is invoked once
    for each of these, [step] is not invoked, and if there is one the run
    is left without a pending tick. *)
Lemma invoke_all_effect r ls :
  forall w,
    WF w -> only_handlers w -> linked r w ->
    nextValueIterator (runs w r) <> None ->
    (forall l, In l ls -> In l (listeners w)) ->
    let w' := exec (invoke_all ls) w in
    resolve_calls (runs w' r)
    = (resolve_calls (runs w r) + handlers_of r ls)%nat /\
    step_calls (runs w' r) = step_calls (runs w r) /\
    ((0 < handlers_of r ls)%nat -> pending r w' = []).
Proof.
  induction ls as [|l ls IH]; intros w H Hh Hl Hi Hin.
  - cbv zeta. change (exec (invoke_all []) w) with w.
    unfold handlers_of. simpl.
    split; [lia | split; [reflexivity | lia]].
  - cbv zeta. simpl. rewrite exec_bind, handlers_of_cons.
    assert (Hls : listeners (exec (invoke l) w) = listeners w)
      by now apply invoke_listeners_kept.
    assert (Hh' : only_handlers (exec (invoke l) w))
      by (unfold only_handlers; rewrite Hls; exact Hh).
    assert (Hl' : linked r (exec (invoke l) w))
      by now apply linked_invoke.
    assert (E0 : exec (invoke l) w
                 = match l with
                   | (target, _, handler r') =>
                       exec (animationCompleteHandler r' (object target)) w
                   | _ => w
                   end)
      by (apply invoke_present, Hin; now left).
    assert (Hi' : nextValueIterator (runs (exec (invoke l) w) r) <> None).
    { rewrite E0. destruct l as [[e t] [| |r']]; try exact Hi.
      rewrite handler_runs. destruct (Nat.eqb r r') eqn:E; [|exact Hi].
      apply Nat.eqb_eq in E. subst r'. exact Hi. }
    destruct (IH (exec (invoke l) w) (WF_invoke l w H) Hh' Hl' Hi')
      as (R & S & P).
    { intros l' Hl'in. rewrite Hls. apply Hin. now right. }
    cbv zeta in *.
    destruct (value_eqb (snd l) (handler r)) eqn:Ev.
    + apply value_eqb_eq in Ev. destruct l as [[e t] v]. simpl in Ev.
      subst v.
      assert (Hp0 : pending r (exec (invoke (e, t, handler r)) w) = [])
        by (rewrite E0; now apply handler_cancels).
      assert (Hfin : pending r (exec (invoke_all ls)
                                     (exec (invoke (e, t, handler r)) w))
                     = []).
      { destruct (Nat.eq_dec (handlers_of r ls) 0) as [Ek | Ek].
        - destruct (invoke_all_foreign r ls
                      (exec (invoke (e, t, handler r)) w)
                      (WF_invoke (e, t, handler r) w H) Ek) as [_ E2].
          rewrite E2. exact Hp0.
        - apply P. lia. }
      rewrite R, S, E0, handler_runs, Nat.eqb_refl. simpl.
      split; [lia | split; [reflexivity|]]. intros _.
      rewrite <- E0. exact Hfin.
    + assert (Hsame : runs (exec (invoke l) w) r = runs w r).
      { rewrite E0. destruct l as [[e t] [| |r']]; try reflexivity.
        apply handler_other; auto. intros ->. simpl in Ev.
        now rewrite Nat.eqb_refl in Ev. }
      rewrite R, S, Hsame. simpl.
      split; [lia | split; [reflexivity | exact P]].
Qed.

(** Counting in a list without repetition. *)
Lemma filter_single {A : Type} (p : A -> bool) (a : A) (ls : list A) :
  NoDup ls -> In a ls -> p a = true ->
  (forall x, In x ls -> p x = true -> x = a) ->
  List.length (filter p ls) = 1%nat.
Proof.
  induction ls as [|x ls IH]; intros Hd Hin Hp Hu; [contradiction|].
  inversion Hd as [|? ? Hn Hd']; subst. simpl.
  destruct Hin as [-> | Hin].
  - rewrite Hp. simpl. f_equal.
    assert (E : filter p ls = []).
    { destruct (filter p ls) as [|y l'] eqn:E; auto.
      assert (Hy : In y (filter p ls)) by (rewrite E; now left).
      apply filter_In in Hy. destruct Hy as [Hy Hpy].
      assert (y = a) by (apply Hu; [now right | exact Hpy]).
      subst y. contradiction. }
    now rewrite E.
  - destruct (p x) eqn:Hpx.
    + assert (x = a) by (apply Hu; [now left | exact Hpx]).
      subst x. contradiction.
    + apply IH; auto. intros y Hy. apply Hu. now right.
Qed.

Lemma filter_none {A : Type} (p : A -> bool) (ls : list A) :
  (forall x, In x ls -> p x = false) -> List.length (filter p ls) = 0%nat.
Proof.
  intro H. induction ls as [|x ls IH]; [reflexivity|].
  simpl. rewrite (H x (or_introl eq_refl)). apply IH.
  intros y Hy. apply H. now right.
Qed.

Lemma In_delivery target type w l :
  In l (delivery target type w)
  <-> In l (listeners w) /\ fst (fst l) = target /\ snd (fst l) = type.
Proof.
  unfold delivery. rewrite filter_In, andb_true_iff, element_eqb_eq,
    type_eqb_eq. tauto.
Qed.

Lemma delivery_one_handler target type r w :
  placed w -> In (target, type, handler r) (listeners w) ->
  handlers_of r (delivery target type w) = 1%nat.
Proof.
  intros [Hd _] Hin. unfold handlers_of.
  apply (filter_single _ (target, type, handler r)).
  - unfold delivery. now apply NoDup_filter.
  - apply In_delivery. simpl. auto.
  - simpl. apply Nat.eqb_refl.
  - intros [[e t] v] Hx Hv. apply In_delivery in Hx. simpl in *.
    destruct Hx as (_ & -> & ->). apply value_eqb_eq in Hv. now subst.
Qed.

Lemma delivery_no_handler target type r w :
  placed w -> target <> run_element (runs w r) ->
  handlers_of r (delivery target type w) = 0%nat.
Proof.
  intros [_ Hp] Hne. unfold handlers_of. apply filter_none.
  intros [[e t] v] Hx. apply In_delivery in Hx. simpl in *.
  destruct Hx as (Hin & -> & ->).
  destruct (value_eqb v (handler r)) eqn:Ev; auto.
  apply value_eqb_eq in Ev. subst v. apply Hp in Hin. contradiction.
Qed.

Lemma exec_delivery target type w :
  exec (dispatchEvent target type) w
  = exec (invoke_all (delivery target type w)) w.
Proof. reflexivity. Qed.

Lemma invoke_all_pending_idle r ls :
  forall w, pending r w = [] -> pending r (exec (invoke_all ls) w) = [].
Proof.
  induction ls as [|l ls IH]; intros w Hp; [exact Hp|].
  simpl. rewrite exec_bind. apply IH. rewrite invoke_unfold.
  destruct (existsb _ _); [|exact Hp].
  destruct l as [[e t] [| |r']]; try exact Hp.
  now apply handler_pending_idle.
Qed.

(** A run without a pending tick, as long as it has been created. *)
Lemma idle_happen r e w :
  WF w -> (r < next_run w)%nat -> pending r w = [] ->
  pending r (happen e w) = [] /\
  step_calls (runs (happen e w) r) = step_calls (runs w r) /\
  (r < next_run (happen e w))%nat.
Proof.
  intros H Hr Hp. destruct e as [u | ts | target type]; simpl.
  - assert (En : Nat.eqb r (next_run w) = false) by (apply Nat.eqb_neq; lia).
    assert (En' : Nat.eqb (next_run w) r = false)
      by (apply Nat.eqb_neq; lia).
    rewrite animate_pending, animate_runs, En, En', app_nil_r.
    rewrite (proj1 (proj2 (animate_counters u w))).
    split; [exact Hp | split; [reflexivity | lia]].
  - destruct (tick_idle r ts w H Hp) as [E1 E2].
    rewrite E1, E2, (proj1 (tick_keeps ts w)). auto.
  - rewrite dispatchEvent_next_run, exec_dispatchEvent.
    split; [now apply invoke_all_pending_idle|].
    split; [|exact Hr]. now apply invoke_all_kept.
Qed.

Lemma idle_play r es :
  forall w, WF w -> (r < next_run w)%nat -> pending r w = [] ->
            pending r (play es w) = [] /\
            step_calls (runs (play es w) r) = step_calls (runs w r).
Proof.
  induction es as [|e es IH]; intros w H Hr Hp; [split; auto|].
  simpl. destruct (idle_happen r e w H Hr Hp) as (E1 & E2 & E3).
  destruct (IH (happen e w) (WF_happen e w H) E3 E1) as [E4 E5].
  split; [exact E4 | congruence].
Qed.

(** X11.  Once a run has no tick pending, its [step] is never invoked
    again: whatever calls, ticks and signals follow, the arguments [step]
    was invoked with stay what they are, and no tick of the run is
    scheduled. *)
Theorem no_step_without_pending_tick
        (history later : list Event) (r : RunId) :
  let w := play history initial_world in
  (r < next_run w)%nat -> pending r w = [] ->
  step_calls (runs (play later w) r) = step_calls (runs w r) /\
  pending r (play later w) = [].
Proof.
  cbv zeta. intros Hr Hp.
  destruct (idle_play r later _ (WF_reachable history) Hr Hp) as [E1 E2].
  split; assumption.
Qed.

Lemma no_step_without_pending_tick_witness :
  let history :=
    [Call (Some (mkPartial None None None (Some 300)));
     Tick 16; Tick 316] in
  let later := [Signal window wheel; Tick 400; Call None; Tick 500] in
  let w := play history initial_world in
  (0 < next_run w)%nat /\ pending 0%nat w = [] /\
  step_calls (runs (play later w) 0%nat) = step_calls (runs w 0%nat).
Proof.
  intros history later w.
  assert (Hr : (0 < next_run w)%nat) by (vm_compute; lia).
  assert (Hp : pending 0%nat w = []) by (vm_compute; reflexivity).
  split; [exact Hr|]. split; [exact Hp|].
  exact (proj1 (no_step_without_pending_tick history later 0%nat Hr Hp)).
Defined.

(** The listeners of a call stay registered. *)
Lemma registered_after
      (history : list Event) (u : option PartialOptions)
      (later : list Event) (type : EventType) :
  let w := play history initial_world in
  cancelOnUserAction (effective u w) = true ->
  In (element (effective u w), type, handler (next_run w))
     (listeners (play later (exec (animate u) w))).
Proof.
  cbv zeta. intro Hc.
  apply (listeners_play later (exec (animate u) (play history initial_world))).
  - change (exec (animate u) (play history initial_world))
      with (happen (Call u) (play history initial_world)).
    apply listeners_happen, only_handlers_reachable.
  - apply animate_listeners. right. split; [exact Hc | eauto].
Qed.

Lemma reachable_after history u later :
  play later (exec (animate u) (play history initial_world))
  = play (history ++ Call u :: later) initial_world.
Proof. rewrite play_app. reflexivity. Qed.

Lemma next_run_play r es :
  forall w, (r < next_run w)%nat -> (r < next_run (play es w))%nat.
Proof.
  induction es as [|e es IH]; intros w Hr; [exact Hr|].
  simpl. apply IH. destruct e as [u | ts | target type]; simpl.
  - rewrite (proj1 (proj2 (animate_counters u w))). lia.
  - now rewrite (proj1 (tick_keeps ts w)).
  - now rewrite dispatchEvent_next_run.
Qed.

Lemma signal_after_first_tick
        (history : list Event) (u : option PartialOptions) (ts0 : Q)
        (later : list Event) (type : EventType) (after : list Event) :
  let w := play history initial_world in
  let r := next_run w in
  let o := effective u w in
  let w2 := play (Tick ts0 :: later) (exec (animate u) w) in
  let w3 := exec (dispatchEvent (element o) type) w2 in
  cancelOnUserAction o = true ->
  pending r w3 = [] /\
  resolve_calls (runs w3 r) = S (resolve_calls (runs w2 r)) /\
  step_calls (runs w3 r) = step_calls (runs w2 r) /\
  step_calls (runs (play after w3) r) = step_calls (runs w2 r).
Proof.
  cbv zeta. intros Hc.
  set (w := play history initial_world).
  set (w2 := play (Tick ts0 :: later) (exec (animate u) w)).
  assert (Ew2 : w2 = play (history ++ Call u :: Tick ts0 :: later)
                          initial_world) by apply reachable_after.
  assert (H2 : WF w2) by (rewrite Ew2; apply WF_reachable).
  assert (Hh : only_handlers w2)
    by (rewrite Ew2; apply only_handlers_reachable).
  assert (Hpl : placed w2) by (rewrite Ew2; apply placed_reachable).
  assert (Hl : linked (next_run w) w2)
    by (rewrite Ew2; apply linked_reachable).
  assert (Hi : nextValueIterator (runs w2 (next_run w)) <> None).
  { destruct (after_first_tick history u ts0 later) as (_ & _ & Ei & _).
    cbv zeta in Ei. fold w w2 in Ei. rewrite Ei. discriminate. }
  assert (Hin : In (element (effective u w), type, handler (next_run w))
                   (listeners w2))
    by (apply (registered_after history u (Tick ts0 :: later) type Hc)).
  pose proof (delivery_one_handler _ _ _ _ Hpl Hin) as Hone.
  destruct (invoke_all_effect (next_run w)
              (delivery (element (effective u w)) type w2) w2 H2 Hh Hl Hi)
    as (R & S & P).
  { intros l Hl'. now apply In_delivery in Hl'. }
  cbv zeta in *. rewrite Hone in R, P.
  rewrite !exec_delivery.
  assert (Hp3 : pending (next_run w)
                  (exec (invoke_all
                           (delivery (element (effective u w)) type w2)) w2)
                = []) by (apply P; lia).
  split; [exact Hp3|]. split; [rewrite R; lia|]. split; [exact S|].
  rewrite <- S. apply idle_play.
  - rewrite <- exec_delivery. now apply WF_dispatchEvent.
  - rewrite <- exec_delivery, dispatchEvent_next_run.
    apply next_run_play.
    rewrite (proj1 (proj2 (animate_counters u w))). lia.
  - exact Hp3.
Qed.

(** X12.  A run with [cancelOnUserAction] true has had its first tick.
    A signal of any of the four types that reaches its element leaves it
    without a pending tick, invokes [resolve] once and does not invoke
    [step]; and [step] is not invoked in anything that follows. *)
Theorem signal_cancels_after_first_tick
        (history : list Event) (u : option PartialOptions) (ts0 : Q)
        (later : list Event) (type : EventType) (after : list Event) :
  let w := play history initial_world in
  let r := next_run w in
  let o := effective u w in
  let w2 := play (Tick ts0 :: later) (exec (animate u) w) in
  let w3 := exec (dispatchEvent (element o) type) w2 in
  cancelOnUserAction o = true ->
  pending r w3 = [] /\
  resolve_calls (runs w3 r) = S (resolve_calls (runs w2 r)) /\
  step_calls (runs w3 r) = step_calls (runs w2 r) /\
  step_calls (runs (play after w3) r) = step_calls (runs w2 r).
Proof. exact (signal_after_first_tick history u ts0 later type after). Qed.

Lemma signal_cancels_after_first_tick_witness :
  let u := Some (mkPartial None None (Some easeOutCubic) (Some 300)) in
  let w2 := play [Tick 16; Tick 116] (exec (animate u) initial_world) in
  let w3 := exec (dispatchEvent window touchstart) w2 in
  cancelOnUserAction (effective u initial_world) = true /\
  pending 0%nat w3 = [] /\
  step_calls (runs (play [Tick 216; Tick 316] w3) 0%nat)
  = step_calls (runs w2 0%nat).
Proof.
  intros u w2 w3.
  assert (Hc : cancelOnUserAction (effective u initial_world) = true)
    by reflexivity.
  pose proof (signal_cancels_after_first_tick
                [] u 16 [Tick 116] touchstart [Tick 216; Tick 316] Hc)
    as (E1 & _ & _ & E4).
  split; [exact Hc|]. split; [exact E1 | exact E4].
Defined.

(** An event on its path is the events at the objects of the path, one
    after the other. *)
Lemma propagate_play type path :
  forall w, exec (propagate path type) w
            = play (map (fun target => Signal target type) path) w.
Proof.
  induction path as [|target path IH]; intro w; [reflexivity|].
  simpl. rewrite exec_bind. apply IH.
Qed.

(** A path that does not pass through the element of a run. *)
Lemma propagate_elsewhere r type path :
  forall w,
    WF w -> only_handlers w -> placed w ->
    ~ In (run_element (runs w r)) path ->
    runs (exec (propagate path type) w) r = runs w r /\
    pending r (exec (propagate path type) w) = pending r w.
Proof.
  induction path as [|target path IH]; intros w H Hh Hp Hn;
    [split; reflexivity|].
  simpl. rewrite exec_bind.
  assert (Hne : target <> run_element (runs w r))
    by (intro E; apply Hn; now left).
  assert (E : runs (exec (dispatchEvent target type) w) r = runs w r /\
              pending r (exec (dispatchEvent target type) w) = pending r w).
  { rewrite !exec_delivery. apply invoke_all_foreign; [exact H|].
    now apply delivery_no_handler. }
  destruct E as [E1 E2].
  destruct (IH (exec (dispatchEvent target type) w)) as [F1 F2].
  - now apply WF_dispatchEvent.
  - exact (proj1 (listeners_happen (Signal target type) w Hh)).
  - exact (placed_happen (Signal target type) w H Hh Hp).
  - rewrite E1. intro Hin. apply Hn. now right.
  - rewrite F1, F2, E1, E2. auto.
Qed.

(** X13.  An event whose path does not pass through the element of a
    run (neither its target nor any object the event bubbles to is that
    element) leaves the run as it is: its variables, the invocations of
    [step] and [resolve] among them, and its pending tick. *)
Theorem signal_elsewhere_is_ignored
        (history : list Event) (r : RunId)
        (path : list AnimationElement) (type : EventType) :
  let w := play history initial_world in
  ~ In (run_element (runs w r)) path ->
  runs (exec (propagate path type) w) r = runs w r /\
  pending r (exec (propagate path type) w) = pending r w.
Proof.
  cbv zeta. apply propagate_elsewhere.
  - apply WF_reachable.
  - apply only_handlers_reachable.
  - apply placed_reachable.
Qed.

Lemma signal_elsewhere_is_ignored_witness :
  let history :=
    [Call (Some (mkPartial None (Some (HTMLElement 3)) None (Some 300)));
     Tick 16] in
  let w := play history initial_world in
  let path := [HTMLElement 7; HTMLElement 5; window] in
  ~ In (run_element (runs w 0%nat)) path /\
  runs (exec (propagate path mousedown) w) 0%nat = runs w 0%nat /\
  pending 0%nat (exec (propagate path mousedown) w) = pending 0%nat w.
Proof.
  intros history w path.
  assert (Hn : ~ In (run_element (runs w 0%nat)) path)
    by (vm_compute; intros [E | [E | [E | []]]]; discriminate).
  destruct (signal_elsewhere_is_ignored history 0%nat path mousedown Hn)
    as [E1 E2].
  split; [exact Hn|]. split; [exact E1 | exact E2].
Defined.

(** *** Whole runs *)

(** Ticks before the deadline: the run goes on waiting, [resolve] is not
    invoked, and [step] receives the eased values. *)
Lemma ticks_keep_waiting r o ts0 tss :
  forall w,
    WF w -> (exists h, pending r w = [(h, r)]) -> ticking o ts0 (runs w r) ->
    (forall ts, In ts tss -> ts0 <= ts /\ ts - ts0 < duration o) ->
    let w' := play (map Tick tss) w in
    WF w' /\ (exists h, pending r w' = [(h, r)]) /\
    resolve_calls (runs w' r) = resolve_calls (runs w r) /\
    step_calls (runs w' r) = step_calls (runs w r) ++ map (eased o ts0) tss.
Proof.
  induction tss as [|ts tss IH]; intros w H [h Hp] Hx Hts.
  - cbv zeta. simpl. rewrite app_nil_r. eauto.
  - destruct Hx as (Ed & Ee & Ei & s & Es & Hs).
    destruct (Hts ts (or_introl eq_refl)) as [Hge Hlt].
    assert (Hb : ts0 <= start_or (start (runs w r)) ts).
    { apply start_or_bounds; auto. intros s' E. rewrite Es in E.
      now inversion E; subst. }
    assert (G : continues ts (runs w r) = true).
    { apply continues_true. rewrite Ed. lra. }
    destruct (tick_own r ts h w H Hp) as [n [E1 E2]].
    rewrite G in E2.
    cbv zeta.
    change (play (map Tick (ts :: tss)) w)
      with (play (map Tick tss) (exec (tick ts) w)).
    destruct (IH (exec (tick ts) w)) as (A & B & C & D).
    + now apply WF_tick.
    + exists n. exact E2.
    + rewrite E1. unfold after_frame. rewrite G, Ei. unfold ticking. simpl.
      repeat split; auto. eauto.
    + intros ts' Hin. apply Hts. now right.
    + cbv zeta in *. split; [exact A|]. split; [exact B|].
      rewrite C, D, E1. unfold after_frame. rewrite G, Ei. simpl.
      rewrite <- app_assoc. auto.
Qed.

(** A run from its call through ticks before its deadline. *)
Lemma run_before_deadline
      (history : list Event) (u : option PartialOptions)
      (ts0 : Q) (tss : list Q) :
  let w := play history initial_world in
  let r := next_run w in
  let o := effective u w in
  let w2 := play (map Tick (ts0 :: tss)) (exec (animate u) w) in
  (forall ts, In ts (ts0 :: tss) -> ts0 <= ts /\ ts - ts0 < duration o) ->
  WF w2 /\ (exists h, pending r w2 = [(h, r)]) /\
  resolve_calls (runs w2 r) = 0%nat /\
  step_calls (runs w2 r) = map (eased o ts0) (ts0 :: tss).
Proof.
  cbv zeta. intro Hts.
  destruct (animate_starts history u) as (H1 & Ex & Ep & _).
  cbv zeta in *.
  set (w := play history initial_world) in *.
  set (w1 := exec (animate u) w) in *.
  destruct (Hts ts0 (or_introl eq_refl)) as [_ Hlt].
  assert (G : continues ts0 (runs w1 (next_run w)) = true).
  { apply continues_true. rewrite Ex. simpl. exact Hlt. }
  destruct (tick_own _ ts0 _ w1 H1 Ep) as [n [E1 E2]].
  rewrite G in E2.
  change (play (map Tick (ts0 :: tss)) w1)
    with (play (map Tick tss) (exec (tick ts0) w1)).
  destruct (ticks_keep_waiting (next_run w) (effective u w) ts0 tss
              (exec (tick ts0) w1)) as (A & B & C & D).
  - now apply WF_tick.
  - exists n. exact E2.
  - rewrite E1. unfold after_frame. rewrite G, Ex. unfold ticking. simpl.
    repeat split; auto. exists ts0. split; [reflexivity | lra].
  - intros ts Hin. apply Hts. now right.
  - cbv zeta in *. split; [exact A|]. split; [exact B|].
    rewrite C, D, E1. unfold after_frame. rewrite G, Ex. simpl. auto.
Qed.

(** X14.  A run undisturbed by signals, whose first tick has a timestamp
    other than 0: ticks before its deadline, then one at or after it.
    [step] receives the eased value of each tick before the deadline and
    then 1, [resolve] is invoked exactly once, and no tick is left
    pending; this is so whatever [cancelOnUserAction] is. *)
Theorem run_to_completion
        (history : list Event) (u : option PartialOptions)
        (ts0 : Q) (tss : list Q) (last : Q) :
  let w := play history initial_world in
  let r := next_run w in
  let o := effective u w in
  let w3 := play (map Tick (ts0 :: tss ++ [last])) (exec (animate u) w) in
  ~ ts0 == 0 ->
  (forall ts, In ts (ts0 :: tss) -> ts0 <= ts /\ ts - ts0 < duration o) ->
  duration o <= last - ts0 ->
  step_calls (runs w3 r)
  = map (fun ts => easing o (1 - (duration o - (ts - ts0)) / duration o))
        (ts0 :: tss) ++ [1] /\
  resolve_calls (runs w3 r) = 1%nat /\
  pending r w3 = [].
Proof.
  cbv zeta. intros Hnz Hts Hlast.
  destruct (run_before_deadline history u ts0 tss Hts) as (A & [h B] & C & D).
  cbv zeta in *.
  destruct (after_first_tick history u ts0 (map Tick tss))
    as (_ & Ed & _ & Es).
  cbv zeta in *. specialize (Es Hnz).
  change (Tick ts0 :: map Tick tss) with (map Tick (ts0 :: tss)) in Ed, Es.
  assert (Ew : play (map Tick (ts0 :: tss ++ [last]))
                    (exec (animate u) (play history initial_world))
               = exec (tick last)
                      (play (map Tick (ts0 :: tss))
                            (exec (animate u) (play history initial_world)))).
  { change (ts0 :: tss ++ [last]) with ((ts0 :: tss) ++ [last]).
    rewrite map_app, play_app. reflexivity. }
  rewrite Ew.
  destruct (tick_at_deadline _ last h _ A B) as (E1 & E2 & E3).
  - rewrite Ed, Es. simpl. apply truthy_true_iff in Hnz. now rewrite Hnz.
  - rewrite E1, E2, E3, C, D. auto.
Qed.

Lemma run_to_completion_witness :
  let u := Some (mkPartial None None (Some easeInQuad) (Some 300)) in
  let w3 := play (map Tick (16 :: [116; 216] ++ [316]))
                 (exec (animate u) initial_world) in
  ~ 16 == 0 /\
  (forall ts, In ts [16; 116; 216] ->
              16 <= ts /\ ts - 16 < duration (effective u initial_world)) /\
  duration (effective u initial_world) <= 316 - 16 /\
  step_calls (runs w3 0%nat)
  = map (fun ts => easeInQuad (1 - (300 - (ts - 16)) / 300)) [16; 116; 216]
    ++ [1] /\
  resolve_calls (runs w3 0%nat) = 1%nat.
Proof.
  intros u w3.
  assert (Hn : ~ 16 == 0) by (vm_compute; discriminate).
  assert (H : forall ts, In ts [16; 116; 216] ->
              16 <= ts /\ ts - 16 < duration (effective u initial_world)).
  { simpl. intros ts [<- | [<- | [<- | []]]]; split; vm_compute;
      congruence. }
  assert (Hl : duration (effective u initial_world) <= 316 - 16)
    by (vm_compute; discriminate).
  pose proof (run_to_completion [] u 16 [116; 216] 316 Hn H Hl)
    as (E1 & E2 & _).
  split; [exact Hn|]. split; [exact H|]. split; [exact Hl|].
  split; [exact E1 | exact E2].
Defined.




(** X16.  A run with [cancelOnUserAction] true receives ticks before
    its deadline, then a signal of one of the four types reaches its
    element.  [resolve] is invoked exactly once and no tick is left
    pending; and whatever follows, no tick is pending again and [step]
    has received the eased values of the ticks before the signal and
    nothing else: a cancelled run gets no last [step(1)]. *)
Theorem cancelled_run_gets_no_last_step
        (history : list Event) (u : option PartialOptions)
        (ts0 : Q) (tss : list Q) (type : EventType) (after : list Event) :
  let w := play history initial_world in
  let r := next_run w in
  let o := effective u w in
  let w2 := play (map Tick (ts0 :: tss)) (exec (animate u) w) in
  let w3 := exec (dispatchEvent (element o) type) w2 in
  cancelOnUserAction o = true ->
  (forall ts, In ts (ts0 :: tss) -> ts0 <= ts /\ ts - ts0 < duration o) ->
  resolve_calls (runs w3 r) = 1%nat /\
  pending r w3 = [] /\
  pending r (play after w3) = [] /\
  step_calls (runs (play after w3) r)
  = map (fun ts => easing o (1 - (duration o - (ts - ts0)) / duration o))
        (ts0 :: tss).
Proof.
  cbv zeta. intros Hc Hts.
  destruct (run_before_deadline history u ts0 tss Hts) as (A & _ & C & D).
  destruct (signal_after_first_tick history u ts0 (map Tick tss) type after
                                    Hc) as (E1 & E2 & _ & E4).
  cbv zeta in *.
  change (Tick ts0 :: map Tick tss) with (map Tick (ts0 :: tss)) in *.
  split; [rewrite E2, C; reflexivity|]. split; [exact E1|].
  split; [|rewrite E4, D; reflexivity].
  apply idle_play; [now apply WF_dispatchEvent | | exact E1].
  rewrite dispatchEvent_next_run. apply next_run_play.
  rewrite (proj1 (proj2 (animate_counters u _))). lia.
Qed.

Lemma cancelled_run_gets_no_last_step_witness :
  let u := Some (mkPartial None None None (Some 300)) in
  let w2 := play (map Tick [16; 50; 83]) (exec (animate u) initial_world) in
  let w3 := exec (dispatchEvent window mousedown) w2 in
  cancelOnUserAction (effective u initial_world) = true /\
  (forall ts, In ts [16; 50; 83] ->
              16 <= ts /\ ts - 16 < duration (effective u initial_world)) /\
  resolve_calls (runs w3 0%nat) = 1%nat /\
  step_calls (runs (play [Tick 100; Tick 316] w3) 0%nat)
  = map (fun ts => linear (1 - (300 - (ts - 16)) / 300)) [16; 50; 83].
Proof.
  intros u w2 w3.
  assert (Hc : cancelOnUserAction (effective u initial_world) = true)
    by reflexivity.
  assert (H : forall ts, In ts [16; 50; 83] ->
              16 <= ts /\ ts - 16 < duration (effective u initial_world)).
  { simpl. intros ts [<- | [<- | [<- | []]]]; split; vm_compute;
      congruence. }
  pose proof (cancelled_run_gets_no_last_step
                [] u 16 [50; 83] mousedown [Tick 100; Tick 316] Hc H)
    as (E1 & _ & _ & E4).
  split; [exact Hc|]. split; [exact H|]. split; [exact E1 | exact E4].
Defined.



(** X18.  Listeners accumulate: whatever ticks and signals a history
    has, the number of registered listeners is four times the number of
    its calls whose effective [cancelOnUserAction] was true. *)
Theorem listeners_accumulate (history : list Event) :
  List.length (listeners (play history initial_world))
  = (4 * cancelling_calls history (defaultOptions initial_world))%nat.
Proof.
  assert (G : forall es w,
             WF w -> only_handlers w ->
             List.length (listeners (play es w))
             = (List.length (listeners w)
                + 4 * cancelling_calls es (defaultOptions w))%nat).
  { induction es as [|e es IH]; intros w H Hh; [simpl; lia|].
    simpl play. rewrite IH.
    - rewrite happen_listeners, happen_defaultOptions by assumption.
      destruct e as [u | ts | target type]; simpl; try reflexivity.
      unfold effective.
      destruct (cancelOnUserAction (Object_assign (defaultOptions w) u));
        [rewrite length_app; simpl; lia | lia].
    - now apply WF_happen.
    - now apply listeners_happen. }
  rewrite G; [reflexivity | apply WF_initial | intros e t v []].
Qed.

(** X19.  What a run remembers of its ticks: until its first tick it
    remembers no handle, and once it has had a tick and waits for the
    next one it remembers the handle of the tick it waits for. *)
Theorem handle_remembered (history : list Event) (r : RunId) :
  let w := play history initial_world in
  (nextValueIterator (runs w r) = None -> requestId (runs w r) = None) /\
  (forall h, pending r w = [(h, r)] ->
             nextValueIterator (runs w r) <> None ->
             requestId (runs w r) = Some h).
Proof.
  cbv zeta. split; [|apply linked_reachable].
  assert (G : forall es w,
             WF w -> (forall r', handle_before_first_tick (runs w r') = None) ->
             forall r', handle_before_first_tick (runs (play es w) r') = None).
  { induction es as [|e es IH]; intros w H Hq; [exact Hq|].
    simpl play. apply IH; [now apply WF_happen|].
    intro r'. destruct e as [u | ts | target type]; simpl.
    - rewrite animate_runs. destruct (Nat.eqb r' (next_run w)); auto.
    - apply tick_kept; auto. intros ts' n x _. unfold after_frame.
      destruct (continues ts' x); reflexivity.
    - rewrite exec_dispatchEvent. apply invoke_all_kept; auto. }
  intro Hi.
  pose proof (G history initial_world WF_initial (fun _ => eq_refl) r) as E.
  unfold handle_before_first_tick in E. now rewrite Hi in E.
Qed.

Lemma handle_remembered_witness :
  let u := Some (mkPartial None None None (Some 300)) in
  let w := play [Call u; Signal window wheel] initial_world in
  let w' := play [Call u; Tick 16] initial_world in
  nextValueIterator (runs w 0%nat) = None /\
  requestId (runs w 0%nat) = None /\
  pending 0%nat w' = [(2%nat, 0%nat)] /\
  nextValueIterator (runs w' 0%nat) <> None /\
  requestId (runs w' 0%nat) = Some 2%nat.
Proof.
  intros u w w'.
  assert (Hi : nextValueIterator (runs w 0%nat) = None) by reflexivity.
  assert (Hp : pending 0%nat w' = [(2%nat, 0%nat)])
    by (vm_compute; reflexivity).
  assert (Hn : nextValueIterator (runs w' 0%nat) <> None)
    by (vm_compute; discriminate).
  split; [exact Hi|].
  split;
    [exact (proj1 (handle_remembered [Call u; Signal window wheel] 0%nat)
                  Hi)|].
  split; [exact Hp|]. split; [exact Hn|].
  exact (proj2 (handle_remembered [Call u; Tick 16] 0%nat) 2%nat Hp Hn).
Defined.



(** The element of a run with [cancelOnUserAction] true is the element
    of the options of its call, at every later moment. *)
Lemma run_element_after
      (history : list Event) (u : option PartialOptions)
      (later : list Event) :
  let w := play history initial_world in
  cancelOnUserAction (effective u w) = true ->
  run_element (runs (play later (exec (animate u) w)) (next_run w))
  = element (effective u w).
Proof.
  cbv zeta. intro Hc.
  pose proof (registered_after history u later wheel Hc) as Hin.
  cbv zeta in Hin.
  rewrite reachable_after in *.
  symmetry. exact (proj2 (placed_reachable _) _ _ _ Hin).
Qed.

(** X21.  A run with [cancelOnUserAction] true has had its first tick.
    An event of one of the four types whose path reaches the element of
    the run, after the objects [pre] which are not that element, leaves
    the run without a pending tick and does not invoke [step], nor does
    anything that follows; [resolve] is invoked once if the rest of the
    path does not pass through the element again. *)
Theorem bubbling_signal_cancels
        (history : list Event) (u : option PartialOptions) (ts0 : Q)
        (later : list Event) (type : EventType)
        (pre post : list AnimationElement) (after : list Event) :
  let w := play history initial_world in
  let r := next_run w in
  let o := effective u w in
  let w2 := play (Tick ts0 :: later) (exec (animate u) w) in
  let w3 := exec (propagate (pre ++ element o :: post) type) w2 in
  cancelOnUserAction o = true ->
  ~ In (element o) pre ->
  pending r w3 = [] /\
  step_calls (runs w3 r) = step_calls (runs w2 r) /\
  step_calls (runs (play after w3) r) = step_calls (runs w2 r) /\
  (~ In (element o) post ->
   resolve_calls (runs w3 r) = S (resolve_calls (runs w2 r))).
Proof.
  cbv zeta. intros Hc Hpre.
  set (w := play history initial_world).
  set (w1 := exec (animate u) w).
  set (sig := fun target => Signal target type).
  set (w2 := play (Tick ts0 :: later) w1).
  set (w2p := play (map sig pre) w2).
  set (w3' := exec (dispatchEvent (element (effective u w)) type) w2p).
  assert (Ew3 : exec (propagate (pre ++ element (effective u w) :: post) type)
                     w2
                = play (map sig post) w3').
  { rewrite propagate_play, map_app, play_app. reflexivity. }

  rewrite Ew3.
  assert (Ew2p : w2p = play (Tick ts0 :: later ++ map sig pre) w1).
  { unfold w2p, w2. change (Tick ts0 :: later ++ map sig pre)
      with ((Tick ts0 :: later) ++ map sig pre).
    now rewrite play_app. }
  assert (Ew2 : w2 = play (history ++ Call u :: Tick ts0 :: later)
                          initial_world) by apply reachable_after.
  assert (Epre : runs w2p (next_run w) = runs w2 (next_run w)).
  { unfold w2p, sig. rewrite <- propagate_play.
    apply propagate_elsewhere.
    - rewrite Ew2. apply WF_reachable.
    - rewrite Ew2. apply only_handlers_reachable.
    - rewrite Ew2. apply placed_reachable.
    - unfold w2, w1, w. rewrite (run_element_after history u _ Hc).
      exact Hpre. }
  destruct (signal_after_first_tick history u ts0 (later ++ map sig pre)
              type (map sig post) Hc) as (E1 & E2 & _ & E4).
  destruct (signal_after_first_tick history u ts0 (later ++ map sig pre)
              type (map sig post ++ after) Hc) as (_ & _ & _ & E5).
  cbv zeta in *. fold w w1 in E1, E2, E4, E5.
  rewrite <- Ew2p in E1, E2, E4, E5. fold w3' in E1, E2, E4, E5.
  rewrite play_app in E5. rewrite Epre in E2, E4, E5.
  assert (Ew2p' : w2p = play (history ++ Call u :: Tick ts0 :: later
                                      ++ map sig pre) initial_world).
  { rewrite Ew2p. apply reachable_after. }
  assert (H3 : WF w3').
  { apply WF_dispatchEvent. rewrite Ew2p'. apply WF_reachable. }
  assert (Hr3 : (next_run w < next_run w3')%nat).
  { unfold w3'. rewrite dispatchEvent_next_run. rewrite Ew2p.
    apply next_run_play. unfold w1.
    rewrite (proj1 (proj2 (animate_counters u w))). lia. }
  split; [exact (proj1 (idle_play _ (map sig post) _ H3 Hr3 E1))|].
  split; [exact E4|]. split; [exact E5|].
  intro Hpost. rewrite <- E2. f_equal.
  unfold sig. rewrite <- propagate_play.
  apply propagate_elsewhere; [exact H3 | | | ].
  - exact (proj1 (listeners_happen
                    (Signal (element (effective u w)) type) w2p
                    ltac:(rewrite Ew2p'; apply only_handlers_reachable))).
  - apply (placed_happen (Signal (element (effective u w)) type) w2p).
    + rewrite Ew2p'. apply WF_reachable.
    + rewrite Ew2p'. apply only_handlers_reachable.
    + rewrite Ew2p'. apply placed_reachable.
  - assert (Ew3' : w3' = play ((Tick ts0 :: later ++ map sig pre)
                                ++ [Signal (element (effective u w)) type])
                               w1)
      by (rewrite play_app, <- Ew2p; reflexivity).
    rewrite Ew3'. unfold w1, w.
    rewrite (run_element_after history u _ Hc). exact Hpost.
Qed.

Lemma bubbling_signal_cancels_witness :
  let u := Some (mkPartial None None None (Some 300)) in
  let w2 := play [Tick 16; Tick 116] (exec (animate u) initial_world) in
  let w3 := exec (propagate ([HTMLElement 5; HTMLElement 2]
                               ++ element (effective u initial_world) :: [])
                            mousedown) w2 in
  cancelOnUserAction (effective u initial_world) = true /\
  ~ In (element (effective u initial_world)) [HTMLElement 5; HTMLElement 2] /\
  pending 0%nat w3 = [] /\
  step_calls (runs (play [Tick 216; Tick 316] w3) 0%nat)
  = step_calls (runs w2 0%nat).
Proof.
  intros u w2 w3.
  assert (Hc : cancelOnUserAction (effective u initial_world) = true)
    by reflexivity.
  assert (Hn : ~ In (element (effective u initial_world))
                    [HTMLElement 5; HTMLElement 2])
    by (simpl; intros [E | [E | []]]; discriminate).
  pose proof (bubbling_signal_cancels
                [] u 16 [Tick 116] mousedown [HTMLElement 5; HTMLElement 2]
                [] [Tick 216; Tick 316] Hc Hn) as (E1 & _ & E3 & _).
  split; [exact Hc|]. split; [exact Hn|]. split; [exact E1 | exact E3].
Defined.

End AnimateMore.
